(** * Shopping Cart Settings: territory-scoped rule resolution

    A shallow embedding of
    [shopping_cart/doctype/shopping_cart_settings/shopping_cart_settings.py]
    and the properties of its validation and resolution methods.

    The document's fields are a record, the database tables it queries are
    plain data, Python dictionaries and sets are [gmap] and [gset], and the
    methods run in a small monad that threads the one piece of mutable state
    of the controller (the [_territory_ancestry] cache) together with the
    log of the calls made to the database and to the territory tree, and
    that can raise. *)

From Stdlib Require Import Sorted.
From stdpp Require Import base option list gmap sets strings sorting.

(** ** Data model *)

(** The three child tables of the settings document ([self.get(parentfield)]). *)
Inductive parentfield : Type :=
  | price_lists
  | sales_taxes_and_charges_masters
  | shipping_rules.

(** The link field of a child row ([doc.get(fieldname)]). *)
Inductive fieldname : Type :=
  | selling_price_list
  | sales_taxes_and_charges_master
  | shipping_rule.

(** The settings document. Every child row is represented by the value of
    its link field, in row order. *)
Record ShoppingCartSettings : Type := {
  enabled : bool;
  default_territory : string;
  company : string;
  table : parentfield → list string
}.

(** A row of [`tabApplicable Territory`]. *)
Record applicable_territory : Type := {
  territory : string;
  parent : string;
  parenttype : string
}.

(** What the controller reads from outside: database tables, the territory
    tree and the doctype meta data. A currency column that is unset holds
    the empty string (the source tests it with [not currency] only). *)
Record Site : Type := {
  tabApplicable_Territory : list applicable_territory;
  tabCompany : gmap string string;
  tabPrice_List : gmap string string;
  tabCurrency_Exchange : list string;
  get_ancestors_of : string → list string;
  table_options : parentfield → string;
  link_options : fieldname → parentfield → string
}.

(** Failures. All but the last three are raised through [msgprint] with
    [raise_exception=ShoppingCartSetupError]; they carry what the message
    names. *)
Inductive error : Type :=
  | EmptyTableError (pf : parentfield)
  | OverlapError (doctype : string) (names : list string) (terr : string)
  | CoverageError (terr : string)
  | MissingCompanyCurrencyError (comp : string)
  | MissingExchangeRatesError (missing : list string)
  | MissingPriceListCurrencyError (price_list : string)
  | ValueError
  | IndexError.

Inductive res (A : Type) : Type :=
  | Ok (a : A)
  | Raise (e : error).
Arguments Ok {A} a.
Arguments Raise {A} e.

(** Calls that leave the controller. *)
Inductive event : Type :=
  | SqlApplicableTerritory (ptype : string) (names : list string)
  | GetAncestorsOf (terr : string)
  | GetValueCompany (comp : string)
  | GetValuesPriceList (names : list string)
  | SqlCurrencyExchange (names : list string).

(** The mutable part of [self] and the log of outside calls.
    [_territory_ancestry = None] is [not hasattr(self, "_territory_ancestry")]. *)
Record session : Type := {
  _territory_ancestry : option (gmap string (list string));
  calls : list event
}.

Definition new_session : session :=
  {| _territory_ancestry := None; calls := [] |}.

(** ** The method monad *)

Definition M (A : Type) : Type := session → res A * session.

Definition ret {A} (a : A) : M A := λ s, (Ok a, s).

Definition bind {A B} (m : M A) (k : A → M B) : M B :=
  λ s, match m s with
       | (Ok a, s') => k a s'
       | (Raise e, s') => (Raise e, s')
       end.

Definition raise {A} (e : error) : M A := λ s, (Raise e, s).

Definition lift {A} (r : res A) : M A := λ s, (r, s).

(** The session after the outside calls [evs]. *)
Definition log (evs : list event) (s : session) : session :=
  {| _territory_ancestry := _territory_ancestry s; calls := calls s ++ evs |}.

Definition call (ev : event) : M unit := λ s, (Ok tt, log [ev] s).

Global Instance M_ret : MRet M := @ret.
Global Instance M_bind : MBind M := λ A B k m, bind m k.

(** ** Python list primitives *)

(** [names.index(val)]; [None] is Python's [ValueError]. *)
Fixpoint index (val : string) (names : list string) : option nat :=
  match names with
  | [] => None
  | n :: names' => if decide (n = val) then Some 0 else S <$> index val names'
  end.

(** Insert a keyed element before the first element whose key is not
    smaller: elements with equal keys keep their order. *)
Fixpoint insert_keyed (x : nat * string) (l : list (nat * string))
  : list (nat * string) :=
  match l with
  | [] => [x]
  | y :: l' => if decide (x.1 ≤ y.1)%nat then x :: l else y :: insert_keyed x l'
  end.

Definition sort_keyed (l : list (nat * string)) : list (nat * string) :=
  foldr insert_keyed [] l.

(** [l.sort(key=lambda val: names.index(val))]: the keys are computed for
    every element first (any failure propagates), then the list is sorted
    stably on them. *)
Definition sort_by_index (names l : list string) : res (list string) :=
  match mapM (λ val, index val names) l with
  | Some keys => Ok ((sort_keyed (zip keys l)).*2)
  | None => Raise ValueError
  end.

(** ** get_territory_name_map *)

(** The query of [get_territory_name_map]:
    [select territory, parent from `tabApplicable Territory`
     where parenttype=%s and parent in (names)]. *)
Definition sql_applicable_territory (site : Site) (ptype : string)
    (names : list string) : list (string * string) :=
  (λ r, (territory r, parent r)) <$>
    filter (λ r, parenttype r = ptype ∧ parent r ∈ names)
           (tabApplicable_Territory site).

(** One turn of the loop over the rows of the query. *)
Definition add_territory_name (names : list string)
    (territory_name_map : gmap string (list string)) (row : string * string)
  : res (gmap string (list string)) :=
  let '(terr, name) := row in
  let l := default [] (territory_name_map !! terr) ++ [name] in
  if decide (1 < length l)%nat then
    match sort_by_index names l with
    | Ok l' => Ok (<[terr := l']> territory_name_map)
    | Raise e => Raise e
    end
  else Ok (<[terr := l]> territory_name_map).

Fixpoint territory_name_loop (names : list string)
    (territory_name_map : gmap string (list string))
    (territory_name : list (string * string))
  : res (gmap string (list string)) :=
  match territory_name with
  | [] => Ok territory_name_map
  | row :: rest =>
      match add_territory_name names territory_name_map row with
      | Ok m' => territory_name_loop names m' rest
      | Raise e => Raise e
      end
  end.

Definition get_territory_name_map (site : Site) (self : ShoppingCartSettings)
    (pf : parentfield) (fn : fieldname) : M (gmap string (list string)) :=
  let names := table self pf in
  match names with
  | [] => ret ∅
  | _ :: _ =>
      let ptype := link_options site fn pf in
      call (SqlApplicableTerritory ptype names) ;;
      lift (territory_name_loop names ∅ (sql_applicable_territory site ptype names))
  end.

(** ** Truthiness *)

(** [if d.get(key):] on a dictionary of lists: the key is present and its
    list is not empty. Also [if not name:] on the result of a resolution. *)
Definition truthy_list (v : option (list string)) : bool :=
  match v with
  | Some (_ :: _) => true
  | _ => false
  end.

Definition truthy_str (v : string) : bool :=
  match v with
  | EmptyString => false
  | _ => true
  end.

(** [l[0]] *)
Definition getitem0 (l : list string) : res string :=
  match l with
  | [] => Raise IndexError
  | x :: _ => Ok x
  end.

(** ** validate_overlapping_territories *)

(** Modelled from the spec: [validate_table_has_rows] is a method of the
    framework's controller class and is not part of the source. The check
    "requires the table to be non-empty" and fails when it has no entry
    (the source: "specify atleast one entry in the table"). *)
Definition validate_table_has_rows (self : ShoppingCartSettings)
    (pf : parentfield) : M unit :=
  match table self pf with
  | [] => raise (EmptyTableError pf)
  | _ :: _ => ret tt
  end.

Definition validate_overlapping_territories (site : Site)
    (self : ShoppingCartSettings) (pf : parentfield) (fn : fieldname)
  : M (gmap string (list string)) :=
  let doctype := table_options site pf in
  validate_table_has_rows self pf ;;
  territory_name_map ← get_territory_name_map site self pf fn;
  match list_find (λ item : string * list string, 1 < length item.2)
                  (map_to_list territory_name_map) with
  | Some (_, (terr, names)) => raise (OverlapError doctype names terr)
  | None => ret territory_name_map
  end.

(** ** get_territory_ancestry and get_name_from_territory *)

Definition get_territory_ancestry (site : Site) (terr : string)
  : M (list string) :=
  λ s,
    let cache := default ∅ (_territory_ancestry s) in
    match cache !! terr with
    | Some (a :: l) =>
        (Ok (a :: l), {| _territory_ancestry := Some cache; calls := calls s |})
    | _ =>
        let ancestry := get_ancestors_of site terr in
        (Ok ancestry,
         {| _territory_ancestry := Some (<[terr := ancestry]> cache);
            calls := calls s ++ [GetAncestorsOf terr] |})
    end.

(** The [for ancestor in territory_ancestry: ... break] loop; [name] starts
    as [None]. *)
Fixpoint ancestor_loop (territory_name_map : gmap string (list string))
    (territory_ancestry : list string) : option (list string) :=
  match territory_ancestry with
  | [] => None
  | ancestor :: rest =>
      if truthy_list (territory_name_map !! ancestor)
      then territory_name_map !! ancestor
      else ancestor_loop territory_name_map rest
  end.

Definition get_name_from_territory (site : Site) (self : ShoppingCartSettings)
    (terr : string) (pf : parentfield) (fn : fieldname)
  : M (option (list string)) :=
  territory_name_map ← get_territory_name_map site self pf fn;
  if truthy_list (territory_name_map !! terr)
  then mret (territory_name_map !! terr)
  else
    territory_ancestry ← get_territory_ancestry site terr;
    mret (ancestor_loop territory_name_map territory_ancestry).

(** [x and x[0] or None] *)
Definition first_or_None (x : option (list string)) : M (option string) :=
  if truthy_list x
  then x0 ← lift (getitem0 (default [] x));
       mret (if truthy_str x0 then Some x0 else None)
  else mret None.

Definition get_price_list (site : Site) (self : ShoppingCartSettings)
    (billing_territory : string) : M (option string) :=
  price_list ← get_name_from_territory site self billing_territory
                 price_lists selling_price_list;
  first_or_None price_list.

Definition get_tax_master (site : Site) (self : ShoppingCartSettings)
    (billing_territory : string) : M (option string) :=
  tax_master ← get_name_from_territory site self billing_territory
                 sales_taxes_and_charges_masters sales_taxes_and_charges_master;
  first_or_None tax_master.

Definition get_shipping_rules (site : Site) (self : ShoppingCartSettings)
    (shipping_territory : string) : M (option (list string)) :=
  get_name_from_territory site self shipping_territory
    shipping_rules shipping_rule.

(** ** The save-time checks *)

Definition validate_price_lists (site : Site) (self : ShoppingCartSettings)
  : M unit :=
  territory_name_map ← validate_overlapping_territories site self
                         price_lists selling_price_list;
  price_list_for_default_territory ←
    get_name_from_territory site self (default_territory self)
      price_lists selling_price_list;
  if truthy_list price_list_for_default_territory
  then mret tt
  else raise (CoverageError (default_territory self)).

Definition validate_tax_masters (site : Site) (self : ShoppingCartSettings)
  : M unit :=
  validate_overlapping_territories site self
    sales_taxes_and_charges_masters sales_taxes_and_charges_master ;;
  mret tt.

(** [frappe.db.get_values("Price List", names, "currency")]: the dictionary
    from each of [names] that is a price list to its currency. *)
Definition get_values_price_list (site : Site) (names : list string)
  : gmap string string :=
  filter (λ kv : string * string, kv.1 ∈ names) (tabPrice_List site).

(** [select name from `tabCurrency Exchange` where name in (names)] *)
Definition sql_currency_exchange (site : Site) (names : list string)
  : list string :=
  filter (λ n, n ∈ names) (tabCurrency_Exchange site).

Definition validate_exchange_rates_exist (site : Site)
    (self : ShoppingCartSettings) : M unit :=
  call (GetValueCompany (company self)) ;;
  let company_currency := default ""%string (tabCompany site !! company self) in
  if truthy_str company_currency then
    let names := table self price_lists in
    call (GetValuesPriceList names) ;;
    let price_list_currency_map := get_values_price_list site names in
    match list_find (λ item : string * string, truthy_str item.2 = false)
                    (map_to_list price_list_currency_map) with
    | Some (_, (price_list, _)) =>
        raise (MissingPriceListCurrencyError price_list)
    | None =>
        let expected_to_exist :=
          (λ currency, currency +:+ "-" +:+ company_currency) <$>
            filter (λ currency, currency ≠ company_currency)
                   (map_to_list price_list_currency_map).*2 in
        match expected_to_exist with
        | [] => mret tt
        | _ :: _ =>
            call (SqlCurrencyExchange expected_to_exist) ;;
            let exists_ := sql_currency_exchange site expected_to_exist in
            let missing :=
              elements (list_to_set expected_to_exist ∖ list_to_set exists_
                        : gset string) in
            match missing with
            | [] => mret tt
            | _ :: _ => raise (MissingExchangeRatesError missing)
            end
        end
    end
  else raise (MissingCompanyCurrencyError (company self)).

Definition validate (site : Site) (self : ShoppingCartSettings) : M unit :=
  if enabled self then
    validate_price_lists site self ;;
    validate_tax_masters site self ;;
    validate_exchange_rates_exist site self
  else mret tt.

(** ** A small site to run the methods on *)

Module Demo.

Definition row (t p pt : string) : applicable_territory :=
  {| territory := t; parent := p; parenttype := pt |}.

Definition ancestors (t : string) : list string :=
  if decide (t = "Mumbai"%string) then ["India"; "Asia"; "All Territories"]%string
  else if decide (t = "India"%string) then ["Asia"; "All Territories"]%string
  else if decide (t = "Asia"%string) then ["All Territories"]%string
  else [].

Definition site : Site :=
  {| tabApplicable_Territory :=
       [ row "Asia" "PL-Asia" "Price List";
         row "India" "PL-India" "Price List";
         row "Asia" "Tax-Asia" "Sales Taxes and Charges Master" ]%string;
     tabCompany := {[ "Acme"%string := "USD"%string ]};
     tabPrice_List := {[ "PL-Asia"%string := "USD"%string;
                         "PL-India"%string := "EUR"%string ]};
     tabCurrency_Exchange := [];
     get_ancestors_of := ancestors;
     table_options := λ pf,
       match pf with
       | price_lists => "Shopping Cart Price List"%string
       | sales_taxes_and_charges_masters =>
           "Shopping Cart Taxes and Charges Master"%string
       | shipping_rules => "Shopping Cart Shipping Rule"%string
       end;
     link_options := λ _ pf,
       match pf with
       | price_lists => "Price List"%string
       | sales_taxes_and_charges_masters =>
           "Sales Taxes and Charges Master"%string
       | shipping_rules => "Shipping Rule"%string
       end |}.

Definition settings : ShoppingCartSettings :=
  {| enabled := true;
     default_territory := "Asia"%string;
     company := "Acme"%string;
     table := λ pf,
       match pf with
       | price_lists => ["PL-Asia"; "PL-India"]%string
       | sales_taxes_and_charges_masters => ["Tax-Asia"]%string
       | shipping_rules => []
       end |}.

(** The settings before any price list is entered. *)
Definition no_price_lists : ShoppingCartSettings :=
  {| enabled := true;
     default_territory := "Asia"%string;
     company := "Acme"%string;
     table := λ _, [] |}.

(** Two price lists for one territory; the database returns the rows in
    the reverse of the table order. *)
Definition overlap_site : Site :=
  {| tabApplicable_Territory :=
       [ row "Asia" "PL-B" "Price List"; row "Asia" "PL-A" "Price List" ]%string;
     tabCompany := tabCompany site;
     tabPrice_List := ∅;
     tabCurrency_Exchange := [];
     get_ancestors_of := ancestors;
     table_options := table_options site;
     link_options := link_options site |}.

Definition overlap_settings : ShoppingCartSettings :=
  {| enabled := true;
     default_territory := "Asia"%string;
     company := "Acme"%string;
     table := λ pf,
       match pf with
       | price_lists => ["PL-A"; "PL-B"]%string
       | _ => []
       end |}.

(** A company in USD with price lists in USD, EUR and EUR, and no rate
    from EUR to USD. *)
Definition currency_site : Site :=
  {| tabApplicable_Territory := [];
     tabCompany := {[ "Acme"%string := "USD"%string ]};
     tabPrice_List := {[ "PL-US"%string := "USD"%string;
                         "PL-FR"%string := "EUR"%string;
                         "PL-DE"%string := "EUR"%string ]};
     tabCurrency_Exchange := ["GBP-USD"%string];
     get_ancestors_of := ancestors;
     table_options := table_options site;
     link_options := link_options site |}.

Definition currency_settings : ShoppingCartSettings :=
  {| enabled := true;
     default_territory := "Asia"%string;
     company := "Acme"%string;
     table := λ pf,
       match pf with
       | price_lists => ["PL-US"; "PL-FR"; "PL-DE"]%string
       | _ => []
       end |}.

(** A row of the price-list table whose link field is the empty string. *)
Definition blank_site : Site :=
  {| tabApplicable_Territory := [ row "Asia" "" "Price List" ]%string;
     tabCompany := tabCompany site;
     tabPrice_List := ∅;
     tabCurrency_Exchange := [];
     get_ancestors_of := ancestors;
     table_options := table_options site;
     link_options := link_options site |}.

Definition blank_settings : ShoppingCartSettings :=
  {| enabled := true;
     default_territory := "Asia"%string;
     company := "Acme"%string;
     table := λ pf,
       match pf with
       | price_lists => [""%string]
       | _ => []
       end |}.

(** [overlap_site] with the rows of the database in the other order. *)
Definition overlap_site_reversed : Site :=
  {| tabApplicable_Territory :=
       [ row "Asia" "PL-A" "Price List"; row "Asia" "PL-B" "Price List" ]%string;
     tabCompany := tabCompany site;
     tabPrice_List := ∅;
     tabCurrency_Exchange := [];
     get_ancestors_of := ancestors;
     table_options := table_options site;
     link_options := link_options site |}.

(** [site] with the rate from EUR to USD. *)
Definition valid_site : Site :=
  {| tabApplicable_Territory := tabApplicable_Territory site;
     tabCompany := tabCompany site;
     tabPrice_List := tabPrice_List site;
     tabCurrency_Exchange := ["EUR-USD"%string];
     get_ancestors_of := ancestors;
     table_options := table_options site;
     link_options := link_options site |}.

(** [settings] with two shipping rules. *)
Definition settings_with_shipping : ShoppingCartSettings :=
  {| enabled := true;
     default_territory := "Asia"%string;
     company := "Acme"%string;
     table := λ pf,
       match pf with
       | price_lists => ["PL-Asia"; "PL-India"]%string
       | sales_taxes_and_charges_masters => ["Tax-Asia"]%string
       | shipping_rules => ["Ship-A"; "Ship-B"]%string
       end |}.

(** A price list without a currency. *)
Definition no_currency_site : Site :=
  {| tabApplicable_Territory := tabApplicable_Territory site;
     tabCompany := tabCompany site;
     tabPrice_List := {[ "PL-Asia"%string := "USD"%string;
                         "PL-India"%string := ""%string ]};
     tabCurrency_Exchange := [];
     get_ancestors_of := ancestors;
     table_options := table_options site;
     link_options := link_options site |}.

End Demo.

(** ** Vocabulary of the properties *)

(** [a] stands in [names] and [b] does too, not before [a]'s first
    occurrence: the order that [names.index] induces. *)
Definition before_in (names : list string) (a b : string) : Prop :=
  ∃ i j, index a names = Some i ∧ index b names = Some j ∧ i ≤ j.

Definition key_le (p q : nat * string) : Prop := p.1 ≤ q.1.

(** The rows that the query returns for a child table. *)
Definition table_rows (site : Site) (self : ShoppingCartSettings)
    (pf : parentfield) (fn : fieldname) : list (string * string) :=
  sql_applicable_territory site (link_options site fn pf) (table self pf).

(** The names of the rows of one territory, in the order of the rows. *)
Definition names_for (rows : list (string * string)) (terr : string)
  : list string :=
  (filter (λ r : string * string, r.1 = terr) rows).*2.

(** The dictionary that [get_territory_name_map] returns. *)
Definition territory_name_map_of (site : Site) (self : ShoppingCartSettings)
    (pf : parentfield) (fn : fieldname) : gmap string (list string) :=
  match territory_name_loop (table self pf) ∅ (table_rows site self pf fn) with
  | Ok m => m
  | Raise _ => ∅
  end.

(** The outside calls of [get_territory_name_map]. *)
Definition name_map_calls (site : Site) (self : ShoppingCartSettings)
    (pf : parentfield) (fn : fieldname) : list event :=
  match table self pf with
  | [] => []
  | _ :: _ => [SqlApplicableTerritory (link_options site fn pf) (table self pf)]
  end.

(** Every list of the dictionary is non-empty, made of table entries and
    ordered by position in the table. *)
Definition well_formed (names : list string) (m : gmap string (list string))
  : Prop :=
  ∀ t l, m !! t = Some l →
    l ≠ [] ∧ Forall (λ v, v ∈ names) l ∧ StronglySorted (before_in names) l.

Ltac run :=
  unfold mbind, M_bind, bind, mret, M_ret, ret, raise, lift, call in *;
  simpl in *.

(** The cache only holds chains that the territory tree gave. *)
Definition cache_coherent (site : Site) (s : session) : Prop :=
  ∀ c t a l, _territory_ancestry s = Some c → c !! t = Some (a :: l) →
             get_ancestors_of site t = a :: l.

(** [name] is assigned to [terr] by a row of the child table's query. *)
Definition direct_entry (site : Site) (self : ShoppingCartSettings)
    (pf : parentfield) (fn : fieldname) (terr name : string) : Prop :=
  (terr, name) ∈ table_rows site self pf fn.

(** How a wrapper's value [v] follows from the resolved list [r]. *)
Definition first_of (r : option (list string)) (v : option string) : Prop :=
  (r = None → v = None) ∧
  (∀ x l, r = Some (x :: l) → x = ""%string → v = None) ∧
  (∀ x l, r = Some (x :: l) → x ≠ ""%string → v = Some x).

(** [company_currency] of [validate_exchange_rates_exist]. *)
Definition company_currency_of (site : Site) (self : ShoppingCartSettings)
  : string :=
  default ""%string (tabCompany site !! company self).

(** [p] is the pair "<currency>-<company currency>" of a price list of the
    table whose currency is not the company's. *)
Definition required_pair (site : Site) (self : ShoppingCartSettings)
    (p : string) : Prop :=
  ∃ price_list currency,
    price_list ∈ table self price_lists ∧
    tabPrice_List site !! price_list = Some currency ∧
    currency ≠ company_currency_of site self ∧
    p = currency +:+ "-" +:+ company_currency_of site self.

(** The child table has a row and no territory has two rows of the
    query: what the overlap check asks for. *)
Definition no_overlap (site : Site) (self : ShoppingCartSettings)
    (pf : parentfield) (fn : fieldname) : Prop :=
  table self pf ≠ [] ∧
  ∀ t, length (names_for (table_rows site self pf fn) t) ≤ 1.

(** The territory or one of its ancestors in the tree has a row. *)
Definition covered (site : Site) (self : ShoppingCartSettings)
    (pf : parentfield) (fn : fieldname) (terr : string) : Prop :=
  (∃ name, direct_entry site self pf fn terr name) ∨
  (∃ a name, a ∈ get_ancestors_of site terr ∧
             direct_entry site self pf fn a name).

(** Every price list of the table that is a price list has a currency. *)
Definition currencies_set (site : Site) (self : ShoppingCartSettings) : Prop :=
  ∀ price_list currency,
    price_list ∈ table self price_lists →
    tabPrice_List site !! price_list = Some currency →
    currency ≠ ""%string.

(** The company has a currency, so have the price lists, and every
    required pair has its exchange rate. *)
Definition rates_exist (site : Site) (self : ShoppingCartSettings) : Prop :=
  company_currency_of site self ≠ ""%string ∧
  currencies_set site self ∧
  ∀ p, required_pair site self p → p ∈ tabCurrency_Exchange site.

(** What [validate] asks of enabled settings. *)
Definition valid_settings (site : Site) (self : ShoppingCartSettings) : Prop :=
  no_overlap site self price_lists selling_price_list ∧
  covered site self price_lists selling_price_list (default_territory self) ∧
  no_overlap site self sales_taxes_and_charges_masters
    sales_taxes_and_charges_master ∧
  rates_exist site self.

(** ** Sorting on the position in the table *)

Lemma index_is_Some (names : list string) (val : string) :
  is_Some (index val names) ↔ val ∈ names.
Proof.
  induction names as [|n names IH]; simpl.
  - split; [intros [? ?]; discriminate | inversion 1].
  - destruct (decide (n = val)) as [->|Hne].
    + split; [intros _; left | eauto].
    + rewrite fmap_is_Some, IH. split; [by right|].
      intros [?|?]%elem_of_cons; congruence.
Qed.

Lemma index_lookup (names : list string) (val : string) (i : nat) :
  index val names = Some i →
  names !! i = Some val ∧ ∀ j, j < i → names !! j ≠ Some val.
Proof.
  revert i. induction names as [|n names IH]; intros i; simpl; [done|].
  destruct (decide (n = val)) as [->|Hne].
  - intros [= <-]. split; [done | lia].
  - destruct (index val names) as [k|] eqn:Hk; [|done].
    intros [= <-]. destruct (IH k eq_refl) as [H1 H2]. split; [done|].
    intros [|j] Hj; simpl; [congruence | apply H2; lia].
Qed.

Lemma insert_keyed_perm (x : nat * string) (l : list (nat * string)) :
  insert_keyed x l ≡ₚ x :: l.
Proof.
  induction l as [|y l IH]; simpl; [done|].
  case_decide; [done|]. by rewrite IH, Permutation_swap.
Qed.

Lemma sort_keyed_perm (l : list (nat * string)) : sort_keyed l ≡ₚ l.
Proof.
  induction l as [|x l IH]; simpl; [done|].
  by rewrite insert_keyed_perm, IH.
Qed.

Lemma insert_keyed_sorted (x : nat * string) (l : list (nat * string)) :
  StronglySorted key_le l → StronglySorted key_le (insert_keyed x l).
Proof.
  induction 1 as [|y l Hl IH Hy]; simpl.
  - repeat constructor.
  - case_decide as Hxy.
    + constructor; [by constructor|].
      constructor; [done|].
      eapply Forall_impl; [exact Hy|]. unfold key_le. intros; lia.
    + constructor; [done|].
      rewrite insert_keyed_perm. constructor; [unfold key_le; lia | done].
Qed.

Lemma sort_keyed_sorted (l : list (nat * string)) :
  StronglySorted key_le (sort_keyed l).
Proof.
  induction l; simpl; [constructor | by apply insert_keyed_sorted].
Qed.

(** Sorting a list whose elements all stand in [names] succeeds, permutes
    it and leaves it ordered by position in [names]. *)
Lemma sort_by_index_spec (names l : list string) :
  Forall (λ v, v ∈ names) l →
  ∃ l', sort_by_index names l = Ok l' ∧ l' ≡ₚ l ∧
        StronglySorted (before_in names) l'.
Proof.
  intros Hl. unfold sort_by_index.
  destruct (mapM (λ val, index val names) l) as [keys|] eqn:Hkeys.
  - apply mapM_Some in Hkeys. eexists; split; [done|].
    assert (Hlen : length keys = length l)
      by (symmetry; by eapply Forall2_length).
    split.
    + rewrite sort_keyed_perm. rewrite snd_zip by lia. done.
    + assert (Hall : Forall (λ p : nat * string, index p.2 names = Some p.1)
                       (sort_keyed (zip keys l))).
      { rewrite sort_keyed_perm. clear Hlen Hl.
        induction Hkeys; simpl; constructor; done. }
      pose proof (sort_keyed_sorted (zip keys l)) as Hs.
      induction Hs as [|p ps Hps IH Hp]; simpl; [constructor|].
      apply Forall_cons in Hall as [Hp1 Hall].
      constructor; [by apply IH|].
      rewrite Forall_fmap. rewrite Forall_forall in Hp, Hall |- *.
      intros q Hq. exists p.1, q.1. repeat split; [done| by apply Hall | by apply Hp].
  - exfalso. apply mapM_None in Hkeys. apply Exists_exists in Hkeys as (v & Hv & Hnone).
    rewrite Forall_forall in Hl. apply Hl, index_is_Some in Hv.
    rewrite Hnone in Hv. by destruct Hv.
Qed.

(** ** What get_territory_name_map builds *)

Lemma log_nil (s : session) : log [] s = s.
Proof. destruct s. unfold log. simpl. by rewrite app_nil_r. Qed.

Lemma sql_rows_in_names (site : Site) (ptype : string) (names : list string) :
  Forall (λ r : string * string, r.2 ∈ names)
         (sql_applicable_territory site ptype names).
Proof.
  unfold sql_applicable_territory. rewrite Forall_fmap.
  apply Forall_forall. intros r Hr. apply list_elem_of_filter in Hr. simpl. tauto.
Qed.

Lemma sql_applicable_territory_nil (site : Site) (ptype : string) :
  sql_applicable_territory site ptype [] = [].
Proof.
  unfold sql_applicable_territory.
  induction (tabApplicable_Territory site) as [|r rows IH]; [done|].
  rewrite filter_cons. case_decide as H; [|done].
  destruct H as [_ H]. inversion H.
Qed.

Lemma names_for_cons (r : string * string) (rows : list (string * string))
    (terr : string) :
  names_for (r :: rows) terr =
  if decide (r.1 = terr) then r.2 :: names_for rows terr else names_for rows terr.
Proof.
  unfold names_for. rewrite filter_cons. by case_decide.
Qed.

Lemma add_territory_name_spec (names : list string)
    (m : gmap string (list string)) (terr name : string) :
  name ∈ names → well_formed names m →
  ∃ l', add_territory_name names m (terr, name) = Ok (<[terr := l']> m) ∧
        l' ≡ₚ default [] (m !! terr) ++ [name] ∧
        well_formed names (<[terr := l']> m).
Proof.
  intros Hname Hwf. unfold add_territory_name.
  set (l := default [] (m !! terr) ++ [name]).
  assert (Hl : Forall (λ v, v ∈ names) l).
  { apply Forall_app. split; [|by constructor].
    destruct (m !! terr) as [l0|] eqn:Hm; simpl; [by apply (Hwf _ _ Hm) | constructor]. }
  assert (Hwf' : ∀ l', l' ≡ₚ l → StronglySorted (before_in names) l' →
                       well_formed names (<[terr := l']> m)).
  { intros l' Hperm Hsorted t l1. rewrite lookup_insert. case_decide as Ht.
    - intros [= <-]. split_and!; [|by rewrite Hperm|done].
      intros ->. apply Permutation_nil_l in Hperm. subst l.
      by destruct (default [] (m !! terr)).
    - apply Hwf. }
  case_decide as Hlen.
  - destruct (sort_by_index_spec names l Hl) as (l' & -> & Hperm & Hsorted).
    exists l'. split_and!; [done..|by apply Hwf'].
  - exists l. split_and!; [done..|]. apply Hwf'; [done|].
    destruct l as [|x [|y l]]; simpl in Hlen; [constructor| |lia].
    repeat constructor.
Qed.

Lemma territory_name_loop_spec (names : list string)
    (rows : list (string * string)) (m : gmap string (list string)) :
  Forall (λ r : string * string, r.2 ∈ names) rows → well_formed names m →
  ∃ m', territory_name_loop names m rows = Ok m' ∧ well_formed names m' ∧
        ∀ t, default [] (m' !! t) ≡ₚ default [] (m !! t) ++ names_for rows t.
Proof.
  intros Hrows. revert m.
  induction Hrows as [|[terr name] rows Hname Hrows IH]; intros m Hwf;
    cbn [territory_name_loop].
  - exists m. split_and!; [done..|]. intros t. by rewrite app_nil_r.
  - destruct (add_territory_name_spec names m terr name Hname Hwf)
      as (l' & Heq & Hperm & Hwf').
    rewrite Heq.
    destruct (IH _ Hwf') as (m' & Hloop & Hwf'' & Hcontent).
    exists m'. split_and!; [done..|]. intros t.
    rewrite Hcontent, names_for_cons, lookup_insert. simpl.
    case_decide as Ht; simpl.
    + subst t. rewrite Hperm. by rewrite <- app_assoc.
    + done.
Qed.

Lemma well_formed_empty (names : list string) : well_formed names ∅.
Proof. intros t l. by rewrite lookup_empty. Qed.

(** [get_territory_name_map] never raises: it returns the dictionary
    [territory_name_map_of] after at most the one query. *)
Lemma get_territory_name_map_run (site : Site) (self : ShoppingCartSettings)
    (pf : parentfield) (fn : fieldname) (s : session) :
  get_territory_name_map site self pf fn s =
  (Ok (territory_name_map_of site self pf fn),
   log (name_map_calls site self pf fn) s).
Proof.
  unfold get_territory_name_map, territory_name_map_of, name_map_calls, table_rows.
  destruct (table self pf) as [|n names] eqn:Hnames.
  - run. by rewrite log_nil, sql_applicable_territory_nil.
  - run.
    destruct (territory_name_loop_spec (n :: names)
                (sql_applicable_territory site (link_options site fn pf) (n :: names)) ∅
                (sql_rows_in_names _ _ _) (well_formed_empty _))
      as (m' & -> & _). done.
Qed.

Lemma territory_name_map_of_spec (site : Site) (self : ShoppingCartSettings)
    (pf : parentfield) (fn : fieldname) :
  well_formed (table self pf) (territory_name_map_of site self pf fn) ∧
  ∀ t, default [] (territory_name_map_of site self pf fn !! t)
       ≡ₚ names_for (table_rows site self pf fn) t.
Proof.
  unfold territory_name_map_of.
  destruct (territory_name_loop_spec (table self pf) (table_rows site self pf fn) ∅
              (sql_rows_in_names _ _ _) (well_formed_empty _))
    as (m' & -> & Hwf & Hcontent).
  split; [done|]. intros t. rewrite Hcontent. by rewrite lookup_empty.
Qed.

(** ** Resolution *)

Lemma cache_coherent_new (site : Site) : cache_coherent site new_session.
Proof. intros c t a l. discriminate. Qed.

Lemma cache_coherent_log (site : Site) (evs : list event) (s : session) :
  cache_coherent site s → cache_coherent site (log evs s).
Proof. intros H c t a l. simpl. apply H. Qed.

Lemma truthy_list_well_formed (names : list string)
    (m : gmap string (list string)) (t : string) :
  well_formed names m →
  truthy_list (m !! t) = match m !! t with Some _ => true | None => false end.
Proof.
  intros Hwf. destruct (m !! t) as [[|x l]|] eqn:Hm; [|done..].
  by destruct (Hwf _ _ Hm) as [? _].
Qed.

Lemma get_territory_ancestry_run (site : Site) (terr : string) (s : session) :
  cache_coherent site s →
  ∃ s', get_territory_ancestry site terr s = (Ok (get_ancestors_of site terr), s') ∧
        cache_coherent site s'.
Proof.
  intros Hs. unfold get_territory_ancestry.
  destruct (default ∅ (_territory_ancestry s) !! terr) as [[|a l]|] eqn:Hc.
  1,3: eexists; split; [done|]; intros c t a' l'; simpl; intros [= <-];
    rewrite lookup_insert; case_decide as Ht; [by intros [= <-]; subst|];
    destruct (_territory_ancestry s) as [c|] eqn:Hs'; simpl;
    [by apply (Hs c) | by rewrite lookup_empty].
  destruct (_territory_ancestry s) as [c|] eqn:Hs'; simpl in Hc;
    [|by rewrite lookup_empty in Hc].
  rewrite (Hs c terr a l Hs' Hc). eexists; split; [done|].
  intros c' t a' l'. simpl. intros [= <-]. by apply Hs.
Qed.

(** Resolution keeps the cache coherent, so every session reached from
    [new_session] is. *)
Lemma get_territory_ancestry_coherent (site : Site) (terr : string)
    (s s' : session) (r : res (list string)) :
  cache_coherent site s → get_territory_ancestry site terr s = (r, s') →
  cache_coherent site s'.
Proof.
  intros Hs Hrun.
  destruct (get_territory_ancestry_run site terr s Hs) as (s'' & Heq & Hs'').
  rewrite Heq in Hrun. by injection Hrun as _ <-.
Qed.

(** The loop over the chain stops at the first ancestor with an entry. *)
Lemma ancestor_loop_nearest (names : list string)
    (m : gmap string (list string)) (ancestry : list string) :
  well_formed names m →
  (∃ pre a post l, ancestry = pre ++ a :: post ∧
      (∀ b, b ∈ pre → m !! b = None) ∧ m !! a = Some l ∧
      ancestor_loop m ancestry = Some l) ∨
  ((∀ a, a ∈ ancestry → m !! a = None) ∧ ancestor_loop m ancestry = None).
Proof.
  intros Hwf. induction ancestry as [|a ancestry IH]; simpl.
  - right. split; [|done]. intros a. inversion 1.
  - rewrite (truthy_list_well_formed names) by done.
    destruct (m !! a) as [l|] eqn:Ha.
    + left. exists [], a, ancestry, l. split_and!; [done| |done..]. intros b. inversion 1.
    + destruct IH as [(pre & a' & post & l & -> & Hpre & Ha' & Hloop)|[Hnone Hloop]].
      * left. exists (a :: pre), a', post, l. split_and!; [done| |done..].
        intros b [->|Hb]%elem_of_cons; [done | by apply Hpre].
      * right. split; [|done]. intros b [->|Hb]%elem_of_cons; [done | by apply Hnone].
Qed.

Lemma get_name_from_territory_run (site : Site) (self : ShoppingCartSettings)
    (terr : string) (pf : parentfield) (fn : fieldname) (s : session) :
  let m := territory_name_map_of site self pf fn in
  let s1 := log (name_map_calls site self pf fn) s in
  get_name_from_territory site self terr pf fn s =
  match m !! terr with
  | Some l => (Ok (Some l), s1)
  | None =>
      match get_territory_ancestry site terr s1 with
      | (Ok ancestry, s2) => (Ok (ancestor_loop m ancestry), s2)
      | (Raise e, s2) => (Raise e, s2)
      end
  end.
Proof.
  intros m s1. unfold get_name_from_territory. run.
  rewrite get_territory_name_map_run. fold m s1.
  destruct (territory_name_map_of_spec site self pf fn) as [Hwf _].
  rewrite (truthy_list_well_formed _ _ _ Hwf).
  subst m. by destruct (territory_name_map_of site self pf fn !! terr).
Qed.

Lemma get_name_from_territory_coherent (site : Site)
    (self : ShoppingCartSettings) (terr : string) (pf : parentfield)
    (fn : fieldname) (s s' : session) (r : res (option (list string))) :
  cache_coherent site s →
  get_name_from_territory site self terr pf fn s = (r, s') →
  cache_coherent site s'.
Proof.
  intros Hs. rewrite get_name_from_territory_run.
  pose proof (cache_coherent_log site (name_map_calls site self pf fn) s Hs)
    as Hs1.
  destruct (territory_name_map_of site self pf fn !! terr).
  - by intros [= _ <-].
  - destruct (get_territory_ancestry site terr _) as [[anc|e] s2] eqn:Hanc;
      intros [= _ <-]; by eapply get_territory_ancestry_coherent.
Qed.

Lemma names_for_elem (rows : list (string * string)) (terr name : string) :
  name ∈ names_for rows terr ↔ (terr, name) ∈ rows.
Proof.
  unfold names_for. rewrite list_elem_of_fmap. split.
  - intros ([t n] & -> & [Ht ?]%list_elem_of_filter). simpl in *. by subst.
  - intros H. exists (terr, name). split; [done|]. by apply list_elem_of_filter.
Qed.

(** A territory has an entry in the dictionary exactly when a row of the
    query names it. *)
Lemma territory_name_map_of_lookup (site : Site) (self : ShoppingCartSettings)
    (pf : parentfield) (fn : fieldname) (terr : string) :
  match territory_name_map_of site self pf fn !! terr with
  | Some l => l ≠ [] ∧ l ≡ₚ names_for (table_rows site self pf fn) terr ∧
              StronglySorted (before_in (table self pf)) l
  | None => names_for (table_rows site self pf fn) terr = []
  end.
Proof.
  destruct (territory_name_map_of_spec site self pf fn) as [Hwf Hcontent].
  specialize (Hcontent terr).
  destruct (territory_name_map_of site self pf fn !! terr) as [l|] eqn:Hm;
    simpl in Hcontent.
  - destruct (Hwf _ _ Hm) as (? & _ & ?). done.
  - by apply Permutation_nil_l in Hcontent.
Qed.

Lemma table_rows_nonempty (site : Site) (self : ShoppingCartSettings)
    (pf : parentfield) (fn : fieldname) (r : string * string) :
  r ∈ table_rows site self pf fn →
  name_map_calls site self pf fn =
  [SqlApplicableTerritory (link_options site fn pf) (table self pf)].
Proof.
  unfold table_rows, name_map_calls. destruct (table self pf); [|done].
  rewrite sql_applicable_territory_nil. inversion 1.
Qed.

Lemma lookup_None_direct_entry (site : Site) (self : ShoppingCartSettings)
    (pf : parentfield) (fn : fieldname) (terr : string) :
  territory_name_map_of site self pf fn !! terr = None ↔
  ∀ name, ¬ direct_entry site self pf fn terr name.
Proof.
  pose proof (territory_name_map_of_lookup site self pf fn terr) as H.
  unfold direct_entry. split.
  - intros Hm name Hin. rewrite Hm in H. apply names_for_elem in Hin.
    rewrite H in Hin. inversion Hin.
  - intros Hnone.
    destruct (territory_name_map_of site self pf fn !! terr) as [l|]; [|done].
    destruct H as (Hne & Hperm & _). destruct l as [|x l]; [done|].
    exfalso. apply (Hnone x), names_for_elem. rewrite <- Hperm. left.
Qed.

Lemma lookup_Some_direct_entry (site : Site) (self : ShoppingCartSettings)
    (pf : parentfield) (fn : fieldname) (terr name : string) :
  direct_entry site self pf fn terr name →
  ∃ l, territory_name_map_of site self pf fn !! terr = Some l ∧ name ∈ l.
Proof.
  intros Hin.
  pose proof (territory_name_map_of_lookup site self pf fn terr) as H.
  apply names_for_elem in Hin.
  destruct (territory_name_map_of site self pf fn !! terr) as [l|].
  - exists l. split; [done|]. destruct H as (_ & Hperm & _). by rewrite Hperm.
  - rewrite H in Hin. inversion Hin.
Qed.

(** ** The claims *)

(** C4. For every child table and every territory, the list that
    [get_territory_name_map] puts under the territory holds exactly the names
    of the rows of that territory and is ordered by the position of the names
    in the table, also when several names share the territory. The method
    always returns, after at most its one query. *)
Theorem territory_name_map_table_order (site : Site)
    (self : ShoppingCartSettings) (pf : parentfield) (fn : fieldname)
    (s : session) :
  ∃ m, get_territory_name_map site self pf fn s =
         (Ok m, log (name_map_calls site self pf fn) s) ∧
       ∀ terr, match m !! terr with
               | Some l =>
                   l ≡ₚ names_for (table_rows site self pf fn) terr ∧
                   StronglySorted (before_in (table self pf)) l
               | None => names_for (table_rows site self pf fn) terr = []
               end.
Proof.
  exists (territory_name_map_of site self pf fn).
  split; [apply get_territory_name_map_run|].
  intros terr. pose proof (territory_name_map_of_lookup site self pf fn terr) as H.
  destruct (territory_name_map_of site self pf fn !! terr); [tauto | done].
Qed.

(** C1. When a row assigns a name to the territory, [get_name_from_territory]
    returns the territory's own list of the dictionary (the names of its rows,
    in table order). The only outside call is the query of the child table:
    the territory tree is not asked and the ancestry cache is left as it
    was. *)
Theorem resolve_direct_entry (site : Site) (self : ShoppingCartSettings)
    (terr : string) (pf : parentfield) (fn : fieldname) (s : session)
    (name : string) :
  direct_entry site self pf fn terr name →
  ∃ l s',
    get_name_from_territory site self terr pf fn s = (Ok (Some l), s') ∧
    territory_name_map_of site self pf fn !! terr = Some l ∧
    name ∈ l ∧
    l ≡ₚ names_for (table_rows site self pf fn) terr ∧
    StronglySorted (before_in (table self pf)) l ∧
    _territory_ancestry s' = _territory_ancestry s ∧
    calls s' = calls s ++
      [SqlApplicableTerritory (link_options site fn pf) (table self pf)].
Proof.
  intros Hin.
  destruct (lookup_Some_direct_entry _ _ _ _ _ _ Hin) as (l & Hm & Hl).
  pose proof (territory_name_map_of_lookup site self pf fn terr) as H.
  rewrite Hm in H. destruct H as (_ & Hperm & Hsorted).
  exists l, (log (name_map_calls site self pf fn) s).
  rewrite get_name_from_territory_run, Hm.
  split_and!; [done..|].
  by rewrite (table_rows_nonempty _ _ _ _ _ Hin).
Qed.

(** C2. When no row assigns a name to the territory, [get_name_from_territory]
    walks the ancestor chain, nearest first: either some ancestor has rows,
    none before it in the chain has, and the result is that ancestor's list;
    or no ancestor of the chain has rows and the result is [None]. *)
Theorem resolve_nearest_ancestor (site : Site) (self : ShoppingCartSettings)
    (terr : string) (pf : parentfield) (fn : fieldname) (s : session) :
  cache_coherent site s →
  (∀ name, ¬ direct_entry site self pf fn terr name) →
  ∃ r s',
    get_name_from_territory site self terr pf fn s = (Ok r, s') ∧
    ((∃ pre a post l,
        get_ancestors_of site terr = pre ++ a :: post ∧
        (∀ b name, b ∈ pre → ¬ direct_entry site self pf fn b name) ∧
        (∃ name, direct_entry site self pf fn a name) ∧
        territory_name_map_of site self pf fn !! a = Some l ∧
        l ≡ₚ names_for (table_rows site self pf fn) a ∧
        r = Some l) ∨
     ((∀ a name, a ∈ get_ancestors_of site terr →
                 ¬ direct_entry site self pf fn a name) ∧
      r = None)).
Proof.
  intros Hs Hnone. apply lookup_None_direct_entry in Hnone.
  rewrite get_name_from_territory_run, Hnone.
  destruct (get_territory_ancestry_run site terr
              (log (name_map_calls site self pf fn) s)
              (cache_coherent_log _ _ _ Hs)) as (s' & -> & _).
  eexists _, s'. split; [done|].
  destruct (territory_name_map_of_spec site self pf fn) as [Hwf _].
  destruct (ancestor_loop_nearest _ _ (get_ancestors_of site terr) Hwf)
    as [(pre & a & post & l & Hanc & Hpre & Ha & ->)|[Hall ->]].
  - left. exists pre, a, post, l. split_and!; [done| | | done | |done].
    + intros b name Hb. by apply lookup_None_direct_entry, Hpre.
    + pose proof (territory_name_map_of_lookup site self pf fn a) as H.
      rewrite Ha in H. destruct H as (Hne & Hperm & _).
      destruct l as [|x l]; [done|]. exists x.
      apply names_for_elem. rewrite <- Hperm. left.
    + pose proof (territory_name_map_of_lookup site self pf fn a) as H.
      rewrite Ha in H. tauto.
  - right. split; [|done]. intros a name Ha.
    by apply lookup_None_direct_entry, Hall.
Qed.

Lemma resolve_direct_entry_witness :
  direct_entry Demo.site Demo.settings price_lists selling_price_list
    "India" "PL-India" ∧
  ∃ l s', get_name_from_territory Demo.site Demo.settings "India"
            price_lists selling_price_list new_session = (Ok (Some l), s') ∧
          "PL-India"%string ∈ l.
Proof.
  assert (H : direct_entry Demo.site Demo.settings price_lists
                selling_price_list "India" "PL-India").
  { unfold direct_entry. vm_compute. repeat constructor. }
  split; [exact H|].
  destruct (resolve_direct_entry Demo.site Demo.settings "India" price_lists
              selling_price_list new_session "PL-India" H)
    as (l & s' & Hrun & _ & Hl & _).
  by exists l, s'.
Defined.

Lemma resolve_nearest_ancestor_witness :
  cache_coherent Demo.site new_session ∧
  (∀ name, ¬ direct_entry Demo.site Demo.settings price_lists
               selling_price_list "Mumbai" name) ∧
  ∃ r s', get_name_from_territory Demo.site Demo.settings "Mumbai"
            price_lists selling_price_list new_session = (Ok r, s').
Proof.
  assert (H : ∀ name, ¬ direct_entry Demo.site Demo.settings price_lists
                          selling_price_list "Mumbai" name).
  { intros name. unfold direct_entry. vm_compute.
    intros Hin. repeat (inversion Hin as [|? ? ? Hin']; clear Hin; rename Hin' into Hin; subst). }
  split; [apply cache_coherent_new|]. split; [exact H|].
  destruct (resolve_nearest_ancestor Demo.site Demo.settings "Mumbai"
              price_lists selling_price_list new_session
              (cache_coherent_new _) H) as (r & s' & Hrun & _).
  by exists r, s'.
Defined.

Lemma get_territory_ancestry_returns (site : Site) (terr : string) (s : session) :
  ∃ ancestry s', get_territory_ancestry site terr s = (Ok ancestry, s').
Proof.
  unfold get_territory_ancestry.
  destruct (default ∅ (_territory_ancestry s) !! terr) as [[|a l]|]; eauto.
Qed.

Lemma get_name_from_territory_returns (site : Site)
    (self : ShoppingCartSettings) (terr : string) (pf : parentfield)
    (fn : fieldname) (s : session) :
  ∃ r s', get_name_from_territory site self terr pf fn s = (Ok r, s') ∧
          r ≠ Some [].
Proof.
  rewrite get_name_from_territory_run.
  destruct (territory_name_map_of_spec site self pf fn) as [Hwf _].
  destruct (territory_name_map_of site self pf fn !! terr) as [l|] eqn:Hm.
  - eexists _, _. split; [done|]. intros [= ->]. by destruct (Hwf _ _ Hm).
  - destruct (get_territory_ancestry_returns site terr
                (log (name_map_calls site self pf fn) s)) as (anc & s' & ->).
    eexists _, _. split; [done|].
    destruct (ancestor_loop_nearest _ _ anc Hwf)
      as [(pre & a & post & l & _ & _ & Ha & ->)|[_ ->]]; [|done].
    intros [= ->]. by destruct (Hwf _ _ Ha).
Qed.

Lemma first_or_None_run (x : option (list string)) (s : session) :
  first_or_None x s =
  (Ok match x with
      | Some (x0 :: _) => if truthy_str x0 then Some x0 else None
      | _ => None
      end, s).
Proof. unfold first_or_None. by destruct x as [[|x0 l]|]. Qed.

(** C8. Resolution never raises: for every site, settings, territory and
    session, [get_name_from_territory] and the three wrappers return a value
    ([None] when nothing matches). *)
Theorem resolution_never_raises (site : Site) (self : ShoppingCartSettings)
    (terr : string) (s : session) :
  (∀ pf fn, ∃ r s',
     get_name_from_territory site self terr pf fn s = (Ok r, s')) ∧
  (∃ r s', get_price_list site self terr s = (Ok r, s')) ∧
  (∃ r s', get_tax_master site self terr s = (Ok r, s')) ∧
  (∃ r s', get_shipping_rules site self terr s = (Ok r, s')).
Proof.
  split_and!.
  - intros pf fn.
    destruct (get_name_from_territory_returns site self terr pf fn s)
      as (r & s' & H & _). eauto.
  - unfold get_price_list. run.
    destruct (get_name_from_territory_returns site self terr price_lists
                selling_price_list s) as (r & s' & -> & _).
    rewrite first_or_None_run. eauto.
  - unfold get_tax_master. run.
    destruct (get_name_from_territory_returns site self terr
                sales_taxes_and_charges_masters sales_taxes_and_charges_master s)
      as (r & s' & -> & _).
    rewrite first_or_None_run. eauto.
  - unfold get_shipping_rules.
    destruct (get_name_from_territory_returns site self terr shipping_rules
                shipping_rule s) as (r & s' & H & _). eauto.
Qed.

Lemma first_of_intro (r : option (list string)) :
  r ≠ Some [] →
  first_of r match r with
             | Some (x0 :: _) => if truthy_str x0 then Some x0 else None
             | _ => None
             end.
Proof.
  intros Hr. unfold first_of. split_and!.
  - by intros ->.
  - by intros x l -> ->.
  - intros x l -> Hx. by destruct x.
Qed.

(** C10. [get_price_list] and [get_tax_master] return [None] when the
    resolution finds nothing and when the first name of the resolved list is
    the empty string; otherwise they return exactly that first name. They
    leave the session as the resolution left it. *)
Theorem wrappers_first_or_none (site : Site) (self : ShoppingCartSettings)
    (terr : string) (s : session) :
  (∃ r v s',
     get_name_from_territory site self terr price_lists selling_price_list s
       = (Ok r, s') ∧
     get_price_list site self terr s = (Ok v, s') ∧ first_of r v) ∧
  (∃ r v s',
     get_name_from_territory site self terr sales_taxes_and_charges_masters
       sales_taxes_and_charges_master s = (Ok r, s') ∧
     get_tax_master site self terr s = (Ok v, s') ∧ first_of r v).
Proof.
  split.
  - destruct (get_name_from_territory_returns site self terr price_lists
                selling_price_list s) as (r & s' & Hrun & Hr).
    eexists r, _, s'. split; [done|]. unfold get_price_list. run.
    rewrite Hrun, first_or_None_run. split; [done|]. by apply first_of_intro.
  - destruct (get_name_from_territory_returns site self terr
                sales_taxes_and_charges_masters sales_taxes_and_charges_master s)
      as (r & s' & Hrun & Hr).
    eexists r, _, s'. split; [done|]. unfold get_tax_master. run.
    rewrite Hrun, first_or_None_run. split; [done|]. by apply first_of_intro.
Qed.

(** ** The overlap check *)

Lemma validate_overlapping_territories_run (site : Site)
    (self : ShoppingCartSettings) (pf : parentfield) (fn : fieldname)
    (s : session) :
  validate_overlapping_territories site self pf fn s =
  match table self pf with
  | [] => (Raise (EmptyTableError pf), s)
  | _ :: _ =>
      let m := territory_name_map_of site self pf fn in
      let s1 := log (name_map_calls site self pf fn) s in
      match list_find (λ item : string * list string, 1 < length item.2)
                      (map_to_list m) with
      | Some (_, (terr, names)) =>
          (Raise (OverlapError (table_options site pf) names terr), s1)
      | None => (Ok m, s1)
      end
  end.
Proof.
  unfold validate_overlapping_territories, validate_table_has_rows. run.
  destruct (table self pf) as [|n names] eqn:Hnames; [done|]. simpl.
  rewrite get_territory_name_map_run.
  by destruct (list_find _ _) as [[? [? ?]]|].
Qed.

(** C3. The overlap check fails exactly when the child table is empty or
    some territory has more than one row. On an empty table it raises
    [EmptyTableError] before any query. On a non-empty table where every
    territory has at most one row it returns the dictionary. When some
    territory has two rows or more it raises [OverlapError] for the doctype of
    the table, naming a territory with more than one row together with the
    names of all its rows in table order. *)
Theorem overlap_check (site : Site) (self : ShoppingCartSettings)
    (pf : parentfield) (fn : fieldname) (s : session) :
  let rows := table_rows site self pf fn in
  let s1 := log (name_map_calls site self pf fn) s in
  ((∃ e s', validate_overlapping_territories site self pf fn s = (Raise e, s'))
   ↔ table self pf = [] ∨ ∃ terr, 1 < length (names_for rows terr)) ∧
  (table self pf = [] →
   validate_overlapping_territories site self pf fn s
   = (Raise (EmptyTableError pf), s)) ∧
  (table self pf ≠ [] → (∀ terr, length (names_for rows terr) ≤ 1) →
   validate_overlapping_territories site self pf fn s
   = (Ok (territory_name_map_of site self pf fn), s1)) ∧
  (∀ terr, 1 < length (names_for rows terr) →
   ∃ terr' names,
     validate_overlapping_territories site self pf fn s
     = (Raise (OverlapError (table_options site pf) names terr'), s1) ∧
     1 < length names ∧
     names ≡ₚ names_for rows terr' ∧
     StronglySorted (before_in (table self pf)) names).
Proof.
  intros rows s1.
  assert (Hlen : ∀ terr l,
            territory_name_map_of site self pf fn !! terr = Some l →
            l ≡ₚ names_for rows terr ∧
            StronglySorted (before_in (table self pf)) l).
  { intros terr l Hm.
    pose proof (territory_name_map_of_lookup site self pf fn terr) as H.
    rewrite Hm in H. tauto. }
  assert (Hempty : table self pf = [] →
            validate_overlapping_territories site self pf fn s
            = (Raise (EmptyTableError pf), s)).
  { intros Hnil. by rewrite validate_overlapping_territories_run, Hnil. }
  assert (Hok : table self pf ≠ [] → (∀ terr, length (names_for rows terr) ≤ 1) →
            validate_overlapping_territories site self pf fn s
            = (Ok (territory_name_map_of site self pf fn), s1)).
  { intros Hne Hone. rewrite validate_overlapping_territories_run.
    destruct (table self pf) as [|n names]; [done|]. simpl.
    destruct (list_find _ _) as [[i [terr l]]|] eqn:Hfind; [|done].
    exfalso. apply list_find_Some in Hfind as (Hi & Hl & _). simpl in Hl.
    apply list_elem_of_lookup_2, elem_of_map_to_list in Hi.
    destruct (Hlen _ _ Hi) as [Hperm _]. specialize (Hone terr).
    rewrite <- Hperm in Hone. lia. }
  assert (Hoverlap : ∀ terr, 1 < length (names_for rows terr) →
            ∃ terr' names,
              validate_overlapping_territories site self pf fn s
              = (Raise (OverlapError (table_options site pf) names terr'), s1) ∧
              1 < length names ∧ names ≡ₚ names_for rows terr' ∧
              StronglySorted (before_in (table self pf)) names).
  { intros terr Hterr. rewrite validate_overlapping_territories_run.
    destruct (table self pf) as [|n names] eqn:Hnames.
    { exfalso. subst rows. unfold table_rows in Hterr.
      rewrite Hnames, sql_applicable_territory_nil in Hterr.
      simpl in Hterr. lia. }
    simpl.
    pose proof (territory_name_map_of_lookup site self pf fn terr) as H.
    fold rows in H. rewrite Hnames in H.
    destruct (territory_name_map_of site self pf fn !! terr) as [l|] eqn:Hm;
      [|rewrite H in Hterr; simpl in Hterr; lia].
    destruct H as (_ & Hperm & _).
    destruct (list_find (λ item : string * list string, 1 < length item.2)
                (map_to_list (territory_name_map_of site self pf fn)))
      as [[i [terr' l']]|] eqn:Hfind.
    - apply list_find_Some in Hfind as (Hi & Hl & _). simpl in Hl.
      apply list_elem_of_lookup_2, elem_of_map_to_list in Hi.
      destruct (Hlen _ _ Hi) as [Hperm' Hsorted'].
      exists terr', l'. by split_and!.
    - exfalso. apply list_find_None in Hfind.
      rewrite Forall_forall in Hfind.
      apply (Hfind (terr, l)); [by apply elem_of_map_to_list|].
      simpl. by rewrite Hperm. }
  split_and!; [|done..].
  split.
  - intros (e & s' & Hrun).
    destruct (table self pf) as [|n names] eqn:Hnames; [by left|]. right.
    destruct (decide (Forall (λ r : string * string,
                length (names_for rows r.1) ≤ 1) rows)) as [Hall|Hex].
    + exfalso. rewrite Hok in Hrun; [discriminate|done|].
      intros terr. destruct (names_for rows terr) as [|x l] eqn:Hn; [simpl; lia|].
      assert (Hx : (terr, x) ∈ rows) by (apply names_for_elem; rewrite Hn; left).
      rewrite Forall_forall in Hall. specialize (Hall _ Hx). simpl in Hall.
      by rewrite Hn in Hall.
    + apply not_Forall_Exists in Hex; [|apply _].
      apply Exists_exists in Hex as (r & _ & Hr). exists r.1. simpl in Hr. lia.
  - intros [Hnil|[terr Hterr]].
    + eexists _, _. by apply Hempty.
    + destruct (Hoverlap terr Hterr) as (terr' & names & Hrun & _). eauto.
Qed.

(** ** The coverage check and the order of the checks *)

Lemma validate_price_lists_run (site : Site) (self : ShoppingCartSettings)
    (s : session) :
  validate_price_lists site self s =
  match validate_overlapping_territories site self price_lists
          selling_price_list s with
  | (Raise e, s1) => (Raise e, s1)
  | (Ok _, s1) =>
      match get_name_from_territory site self (default_territory self)
              price_lists selling_price_list s1 with
      | (Raise e, s2) => (Raise e, s2)
      | (Ok r, s2) =>
          if truthy_list r then (Ok tt, s2)
          else (Raise (CoverageError (default_territory self)), s2)
      end
  end.
Proof.
  unfold validate_price_lists. run.
  destruct (validate_overlapping_territories _ _ _ _ s) as [[m|e] s1]; [|done].
  destruct (get_name_from_territory _ _ _ _ _ s1) as [[r|e] s2]; [|done].
  by destruct (truthy_list r).
Qed.

Lemma validate_price_lists_coverage (site : Site)
    (self : ShoppingCartSettings) (s s1 : session)
    (m : gmap string (list string)) :
  validate_overlapping_territories site self price_lists selling_price_list s
    = (Ok m, s1) →
  ∃ r s2,
    get_name_from_territory site self (default_territory self)
      price_lists selling_price_list s1 = (Ok r, s2) ∧
    (r = None →
     validate_price_lists site self s
     = (Raise (CoverageError (default_territory self)), s2)) ∧
    (r ≠ None → validate_price_lists site self s = (Ok tt, s2)).
Proof.
  intros Hoverlap.
  destruct (get_name_from_territory_returns site self (default_territory self)
              price_lists selling_price_list s1) as (r & s2 & Hrun & Hr).
  exists r, s2. rewrite validate_price_lists_run, Hoverlap, Hrun.
  split_and!; [done| |].
  - by intros ->.
  - intros Hsome. by destruct r as [[|x l]|].
Qed.

(** C5 (amended). [validate_price_lists] starts with the overlap check of the
    price lists, and a failure of that check is its failure. Once the overlap
    check has passed, it resolves the default territory against the price
    lists, and raises [CoverageError] naming the default territory exactly
    when the resolution finds nothing; otherwise it succeeds. *)
Theorem default_territory_coverage (site : Site)
    (self : ShoppingCartSettings) (s : session) :
  (∀ e s1,
     validate_overlapping_territories site self price_lists
       selling_price_list s = (Raise e, s1) →
     validate_price_lists site self s = (Raise e, s1)) ∧
  (∀ m s1,
     validate_overlapping_territories site self price_lists
       selling_price_list s = (Ok m, s1) →
     ∃ r s2,
       get_name_from_territory site self (default_territory self)
         price_lists selling_price_list s1 = (Ok r, s2) ∧
       (validate_price_lists site self s
        = (Raise (CoverageError (default_territory self)), s2) ↔ r = None) ∧
       (validate_price_lists site self s = (Ok tt, s2) ↔ r ≠ None)).
Proof.
  split.
  - intros e s1 Hoverlap. by rewrite validate_price_lists_run, Hoverlap.
  - intros m s1 Hoverlap.
    destruct (validate_price_lists_coverage site self s s1 m Hoverlap)
      as (r & s2 & Hrun & Hnone & Hsome).
    exists r, s2. split; [done|].
    destruct r as [l|].
    + rewrite Hsome by done. split; split; done.
    + rewrite Hnone by done. split; split; done.
Qed.

(** C9. With [enabled] unset, [validate] succeeds and leaves the session as
    it was: no check runs. With [enabled] set it runs the overlap check of
    the price lists, then the coverage check of the default territory, then
    the overlap check of the tax masters, then the check of the exchange
    rates; the first failure is the result, with the session as that check
    left it, so that no later check has run. *)
Theorem validate_order (site : Site) (self : ShoppingCartSettings)
    (s : session) :
  (enabled self = false → validate site self s = (Ok tt, s)) ∧
  (enabled self = true →
   (∀ e s1,
      validate_overlapping_territories site self price_lists
        selling_price_list s = (Raise e, s1) →
      validate site self s = (Raise e, s1)) ∧
   (∀ m s1,
      validate_overlapping_territories site self price_lists
        selling_price_list s = (Ok m, s1) →
      ∃ r s2,
        get_name_from_territory site self (default_territory self)
          price_lists selling_price_list s1 = (Ok r, s2) ∧
        (r = None →
         validate site self s
         = (Raise (CoverageError (default_territory self)), s2)) ∧
        (r ≠ None →
         (∀ e s3,
            validate_overlapping_territories site self
              sales_taxes_and_charges_masters sales_taxes_and_charges_master s2
              = (Raise e, s3) →
            validate site self s = (Raise e, s3)) ∧
         (∀ m' s3,
            validate_overlapping_territories site self
              sales_taxes_and_charges_masters sales_taxes_and_charges_master s2
              = (Ok m', s3) →
            validate site self s
            = validate_exchange_rates_exist site self s3)))).
Proof.
  unfold validate. split; intros ->; [done|].
  split.
  - intros e s1 Hoverlap. run.
    by rewrite validate_price_lists_run, Hoverlap.
  - intros m s1 Hoverlap.
    destruct (validate_price_lists_coverage site self s s1 m Hoverlap)
      as (r & s2 & Hrun & Hnone & Hsome).
    exists r, s2. split; [done|]. split.
    + intros Hr. run. by rewrite Hnone.
    + intros Hr. unfold validate_tax_masters. run. rewrite Hsome by done.
      split.
      * intros e s3 ->. done.
      * intros m' s3 ->. done.
Qed.

(** ** The exchange rates *)

Lemma truthy_str_true (v : string) : truthy_str v = true ↔ v ≠ ""%string.
Proof. by destruct v. Qed.

Lemma truthy_str_false (v : string) : truthy_str v = false ↔ v = ""%string.
Proof. by destruct v. Qed.

Lemma get_values_price_list_lookup (site : Site) (names : list string)
    (price_list currency : string) :
  (price_list, currency) ∈ map_to_list (get_values_price_list site names) ↔
  tabPrice_List site !! price_list = Some currency ∧ price_list ∈ names.
Proof.
  unfold get_values_price_list.
  by rewrite elem_of_map_to_list, map_lookup_filter_Some.
Qed.

(** The pairs that the check asks the exchange table for. *)
Lemma expected_to_exist_elem (site : Site) (self : ShoppingCartSettings)
    (p : string) :
  p ∈ ((λ currency, currency +:+ "-" +:+ company_currency_of site self) <$>
         filter (λ currency, currency ≠ company_currency_of site self)
           (map_to_list (get_values_price_list site
                           (table self price_lists))).*2)
  ↔ required_pair site self p.
Proof.
  rewrite list_elem_of_fmap. unfold required_pair. split.
  - intros (c & -> & [Hc Hin]%list_elem_of_filter).
    apply list_elem_of_fmap in Hin as ([pl c'] & -> & Hin). simpl in *.
    apply get_values_price_list_lookup in Hin as [Hpl Hnames].
    by exists pl, c'.
  - intros (pl & c & Hnames & Hpl & Hc & ->). exists c. split; [done|].
    apply list_elem_of_filter. split; [done|].
    apply list_elem_of_fmap. exists (pl, c). split; [done|].
    by apply get_values_price_list_lookup.
Qed.

Lemma currency_coverage_general (site : Site) (self : ShoppingCartSettings)
    (s : session) :
  company_currency_of site self ≠ ""%string →
  (∀ price_list currency,
     price_list ∈ table self price_lists →
     tabPrice_List site !! price_list = Some currency →
     currency ≠ ""%string) →
  ∃ s',
    ((∀ p, required_pair site self p → p ∈ tabCurrency_Exchange site) ∧
     validate_exchange_rates_exist site self s = (Ok tt, s')) ∨
    (∃ missing,
       validate_exchange_rates_exist site self s
       = (Raise (MissingExchangeRatesError missing), s') ∧
       missing ≠ [] ∧ NoDup missing ∧
       ∀ p, p ∈ missing ↔
            required_pair site self p ∧ p ∉ tabCurrency_Exchange site).
Proof.
  intros Hcc Hcur. unfold validate_exchange_rates_exist. run.
  fold (company_currency_of site self).
  apply truthy_str_true in Hcc as Hcc'. rewrite Hcc'.
  destruct (list_find (λ item : string * string, truthy_str item.2 = false)
              (map_to_list (get_values_price_list site (table self price_lists))))
    as [[i [pl c]]|] eqn:Hfind.
  { exfalso. apply list_find_Some in Hfind as (Hi & Hc & _). simpl in Hc.
    apply list_elem_of_lookup_2, get_values_price_list_lookup in Hi as [Hpl Hin].
    apply truthy_str_false in Hc. by apply (Hcur pl c). }
  pose proof (expected_to_exist_elem site self) as Hexp.
  set (expected :=
         (λ currency, currency +:+ "-" +:+ company_currency_of site self) <$>
           filter (λ currency, currency ≠ company_currency_of site self)
             (map_to_list (get_values_price_list site
                             (table self price_lists))).*2) in *.
  destruct expected as [|p0 expected'] eqn:Hexpected.
  { eexists. left. split; [|done].
    intros p Hp. apply Hexp in Hp. inversion Hp. }
  rewrite <- Hexpected in Hexp |- *. clear Hexpected. simpl.
  assert (Hmiss : ∀ p,
            p ∈ elements (list_to_set expected
                          ∖ list_to_set (sql_currency_exchange site expected)
                          : gset string)
            ↔ required_pair site self p ∧ p ∉ tabCurrency_Exchange site).
  { intros p.
    rewrite elem_of_elements, elem_of_difference, !elem_of_list_to_set.
    unfold sql_currency_exchange. rewrite list_elem_of_filter, Hexp. tauto. }
  destruct (elements _) as [|q missing'] eqn:Hmissing.
  - eexists. left. split; [|done].
    intros p Hp. destruct (decide (p ∈ tabCurrency_Exchange site)); [done|].
    exfalso. assert (Hin : p ∈ @nil string) by (by apply Hmiss). inversion Hin.
  - eexists. right. exists (q :: missing'). split_and!; [done|done| |done].
    rewrite <- Hmissing. apply NoDup_elements.
Qed.

(** C6. [validate_exchange_rates_exist], for a company whose currency is set
    and price lists whose currencies are set, asks for the pairs
    "<currency>-<company currency>" of the price lists whose currency is not
    the company's. It succeeds when the exchange table has them all, and
    otherwise raises [MissingExchangeRatesError] with the pairs that the
    table lacks, each once. For a company in USD and price lists in USD, EUR
    and EUR, without a rate from EUR to USD, the error lists exactly
    "EUR-USD". *)
Theorem currency_coverage :
  (∀ (site : Site) (self : ShoppingCartSettings) (s : session),
     company_currency_of site self ≠ ""%string →
     (∀ price_list currency,
        price_list ∈ table self price_lists →
        tabPrice_List site !! price_list = Some currency →
        currency ≠ ""%string) →
     ∃ s',
       ((∀ p, required_pair site self p → p ∈ tabCurrency_Exchange site) ∧
        validate_exchange_rates_exist site self s = (Ok tt, s')) ∨
       (∃ missing,
          validate_exchange_rates_exist site self s
          = (Raise (MissingExchangeRatesError missing), s') ∧
          missing ≠ [] ∧ NoDup missing ∧
          ∀ p, p ∈ missing ↔
               required_pair site self p ∧ p ∉ tabCurrency_Exchange site)) ∧
  (validate_exchange_rates_exist Demo.currency_site Demo.currency_settings
     new_session).1
  = Raise (MissingExchangeRatesError ["EUR-USD"%string]).
Proof.
  split; [apply currency_coverage_general|].
  vm_compute. reflexivity.
Qed.

Lemma currency_coverage_witness :
  company_currency_of Demo.currency_site Demo.currency_settings ≠ ""%string ∧
  ∃ s',
    validate_exchange_rates_exist Demo.currency_site Demo.currency_settings
      new_session
    = (Raise (MissingExchangeRatesError ["EUR-USD"%string]), s').
Proof.
  assert (Hcc : company_currency_of Demo.currency_site Demo.currency_settings
                ≠ ""%string) by (vm_compute; discriminate).
  assert (Hcur : ∀ price_list currency,
            price_list ∈ table Demo.currency_settings price_lists →
            tabPrice_List Demo.currency_site !! price_list = Some currency →
            currency ≠ ""%string).
  { intros pl c Hpl Hc. simpl in Hpl.
    repeat (apply elem_of_cons in Hpl as [->|Hpl]);
      [vm_compute in Hc; injection Hc as <-; discriminate ..|inversion Hpl]. }
  split; [exact Hcc|].
  destruct currency_coverage as [Hgeneral _].
  destruct (Hgeneral Demo.currency_site Demo.currency_settings new_session
              Hcc Hcur) as (s' & [[_ Hrun]|(missing & Hrun & _)]);
    exists s'; rewrite Hrun; vm_compute in Hrun.
  - discriminate.
  - by injection Hrun as <- _.
Defined.

Lemma overlap_check_witness :
  1 < length (names_for (table_rows Demo.overlap_site Demo.overlap_settings
                           price_lists selling_price_list) "Asia") ∧
  ∃ terr' names s',
    validate_overlapping_territories Demo.overlap_site Demo.overlap_settings
      price_lists selling_price_list new_session
    = (Raise (OverlapError "Shopping Cart Price List" names terr'), s') ∧
    1 < length names.
Proof.
  assert (H : 1 < length (names_for (table_rows Demo.overlap_site
                Demo.overlap_settings price_lists selling_price_list) "Asia"))
    by (vm_compute; lia).
  split; [exact H|].
  destruct (overlap_check Demo.overlap_site Demo.overlap_settings price_lists
              selling_price_list new_session) as (_ & _ & _ & Hoverlap).
  destruct (Hoverlap "Asia"%string H) as (terr' & names & Hrun & Hlen & _).
  eexists terr', names, _. split; [exact Hrun | exact Hlen].
Defined.

(** The conflicting names come out in table order whatever the order of the
    rows in the database. *)
Example overlap_in_table_order :
  (validate_overlapping_territories Demo.overlap_site Demo.overlap_settings
     price_lists selling_price_list new_session).1
  = Raise (OverlapError "Shopping Cart Price List" ["PL-A"; "PL-B"] "Asia").
Proof. vm_compute. reflexivity. Qed.

(** Resolution on the site of the specification: a direct hit, then the
    nearest ancestor. *)
Example resolve_India :
  (get_name_from_territory Demo.site Demo.settings "India" price_lists
     selling_price_list new_session).1 = Ok (Some ["PL-India"%string]).
Proof. vm_compute. reflexivity. Qed.

Example resolve_Mumbai :
  (get_price_list Demo.site Demo.settings "Mumbai" new_session).1
  = Ok (Some "PL-India"%string).
Proof. vm_compute. reflexivity. Qed.

(** A resolved list whose first name is empty gives [None]. *)
Example get_price_list_blank_name :
  (get_name_from_territory Demo.blank_site Demo.blank_settings "Asia"
     price_lists selling_price_list new_session).1 = Ok (Some [""%string]) ∧
  (get_price_list Demo.blank_site Demo.blank_settings "Asia" new_session).1
  = Ok None.
Proof. split; vm_compute; reflexivity. Qed.

(** C5, as first stated, fails on settings without price lists: resolving
    the default territory finds nothing, yet [validate_price_lists] raises
    [EmptyTableError], not [CoverageError], and makes no outside call. *)
Lemma coverage_after_overlap_counterexample :
  (get_name_from_territory Demo.site Demo.no_price_lists
     (default_territory Demo.no_price_lists) price_lists selling_price_list
     new_session).1 = Ok None ∧
  validate_price_lists Demo.site Demo.no_price_lists new_session
  = (Raise (EmptyTableError price_lists), new_session).
Proof. split; vm_compute; reflexivity. Qed.

Lemma default_territory_coverage_witness :
  ∃ m s1 r s2,
    validate_overlapping_territories Demo.site Demo.settings price_lists
      selling_price_list new_session = (Ok m, s1) ∧
    get_name_from_territory Demo.site Demo.settings
      (default_territory Demo.settings) price_lists selling_price_list s1
    = (Ok r, s2) ∧
    (validate_price_lists Demo.site Demo.settings new_session = (Ok tt, s2)
     ↔ r ≠ None).
Proof.
  destruct (default_territory_coverage Demo.site Demo.settings new_session)
    as [_ H].
  destruct (validate_overlapping_territories Demo.site Demo.settings
              price_lists selling_price_list new_session) as [[m|e] s1] eqn:Hov.
  - destruct (H m s1 eq_refl) as (r & s2 & Hr & _ & Hok).
    exists m, s1, r, s2. split; [reflexivity|]. split; [exact Hr | exact Hok].
  - vm_compute in Hov. discriminate.
Defined.

Lemma validate_order_witness :
  enabled Demo.no_price_lists = true ∧
  validate Demo.site Demo.no_price_lists new_session
  = (Raise (EmptyTableError price_lists), new_session).
Proof.
  split; [reflexivity|].
  destruct (validate_order Demo.site Demo.no_price_lists new_session)
    as [_ H].
  destruct (H eq_refl) as [Hfirst _].
  apply Hfirst. vm_compute. reflexivity.
Defined.

(** ** The ancestry cache *)

(** X1. Once [get_territory_ancestry] has returned a non-empty chain for a
    territory, asking again returns the same chain and changes nothing: the
    tree is not called a second time. *)
Theorem territory_ancestry_cached (site : Site) (terr : string)
    (s s1 : session) (ancestry : list string) :
  get_territory_ancestry site terr s = (Ok ancestry, s1) →
  ancestry ≠ [] →
  get_territory_ancestry site terr s1 = (Ok ancestry, s1).
Proof.
  unfold get_territory_ancestry.
  destruct (default ∅ (_territory_ancestry s) !! terr) as [[|a l]|] eqn:Hc;
    intros [= <- <-] Hne; simpl.
  - rewrite lookup_insert_eq.
    by destruct (get_ancestors_of site terr).
  - by rewrite Hc.
  - rewrite lookup_insert_eq.
    by destruct (get_ancestors_of site terr).
Qed.

Lemma territory_ancestry_cached_witness :
  ∃ s1,
    get_territory_ancestry Demo.site "Mumbai" new_session
    = (Ok ["India"; "Asia"; "All Territories"]%string, s1) ∧
    get_territory_ancestry Demo.site "Mumbai" s1
    = (Ok ["India"; "Asia"; "All Territories"]%string, s1).
Proof.
  destruct (get_territory_ancestry Demo.site "Mumbai" new_session)
    as [r s1] eqn:Hrun.
  assert (Hr : r = Ok ["India"; "Asia"; "All Territories"]%string).
  { vm_compute in Hrun. by injection Hrun as <- _. }
  subst r. exists s1. split; [reflexivity|].
  apply (territory_ancestry_cached Demo.site "Mumbai" new_session s1 _ Hrun).
  discriminate.
Defined.

(** X2. A territory without ancestors is never served from the cache: with
    a coherent cache, two calls in a row both ask the tree. *)
Theorem territory_ancestry_root_asked_again (site : Site) (terr : string)
    (s : session) :
  cache_coherent site s →
  get_ancestors_of site terr = [] →
  ∃ s1 s2,
    get_territory_ancestry site terr s = (Ok [], s1) ∧
    get_territory_ancestry site terr s1 = (Ok [], s2) ∧
    calls s2 = calls s ++ [GetAncestorsOf terr; GetAncestorsOf terr].
Proof.
  intros Hs Hroot.
  assert (Hstep : ∀ s0, cache_coherent site s0 →
            ∃ s', get_territory_ancestry site terr s0 = (Ok [], s') ∧
                  cache_coherent site s' ∧
                  calls s' = calls s0 ++ [GetAncestorsOf terr]).
  { intros s0 Hs0.
    destruct (get_territory_ancestry site terr s0) as [r s'] eqn:Hrun.
    pose proof (get_territory_ancestry_coherent _ _ _ _ _ Hs0 Hrun) as Hs'.
    exists s'. unfold get_territory_ancestry in Hrun.
    destruct (default ∅ (_territory_ancestry s0) !! terr) as [[|a l]|] eqn:Hc.
    - rewrite Hroot in Hrun. by injection Hrun as <- <-.
    - exfalso. destruct (_territory_ancestry s0) as [c|] eqn:Hs0c; simpl in Hc;
        [|by rewrite lookup_empty in Hc].
      specialize (Hs0 c terr a l Hs0c Hc). by rewrite Hroot in Hs0.
    - rewrite Hroot in Hrun. by injection Hrun as <- <-. }
  destruct (Hstep s Hs) as (s1 & Hrun1 & Hs1 & Hcalls1).
  destruct (Hstep s1 Hs1) as (s2 & Hrun2 & _ & Hcalls2).
  exists s1, s2. split_and!; [done..|].
  by rewrite Hcalls2, Hcalls1, <- app_assoc.
Qed.

Lemma territory_ancestry_root_asked_again_witness :
  cache_coherent Demo.site new_session ∧
  get_ancestors_of Demo.site "All Territories" = [] ∧
  ∃ s1 s2,
    get_territory_ancestry Demo.site "All Territories" new_session
    = (Ok [], s1) ∧
    get_territory_ancestry Demo.site "All Territories" s1 = (Ok [], s2) ∧
    calls s2 = [GetAncestorsOf "All Territories"; GetAncestorsOf "All Territories"].
Proof.
  split; [apply cache_coherent_new|]. split; [reflexivity|].
  apply (territory_ancestry_root_asked_again Demo.site "All Territories"
           new_session (cache_coherent_new _) eq_refl).
Defined.

(** Outside the territory asked for, the cache keeps what it had. *)
Lemma get_territory_ancestry_other (site : Site) (terr t : string)
    (s s' : session) (r : res (list string)) :
  get_territory_ancestry site terr s = (r, s') → t ≠ terr →
  default ∅ (_territory_ancestry s') !! t
  = default ∅ (_territory_ancestry s) !! t.
Proof.
  unfold get_territory_ancestry.
  destruct (default ∅ (_territory_ancestry s) !! terr) as [[|a l]|];
    intros [= _ <-] Hne; simpl; [|done|]; by rewrite lookup_insert_ne.
Qed.

(** X3. A resolution keeps the cache coherent, leaves the cached chain of
    every other territory as it was, and only adds to the log of outside
    calls. *)
Theorem resolution_keeps_cache (site : Site) (self : ShoppingCartSettings)
    (terr : string) (pf : parentfield) (fn : fieldname) (s s' : session)
    (r : res (option (list string))) :
  cache_coherent site s →
  get_name_from_territory site self terr pf fn s = (r, s') →
  cache_coherent site s' ∧
  (∀ t, t ≠ terr →
        default ∅ (_territory_ancestry s') !! t
        = default ∅ (_territory_ancestry s) !! t) ∧
  ∃ evs, calls s' = calls s ++ evs.
Proof.
  intros Hs Hrun. split; [by eapply get_name_from_territory_coherent|].
  rewrite get_name_from_territory_run in Hrun.
  destruct (territory_name_map_of site self pf fn !! terr).
  - injection Hrun as _ <-. split; [done|]. by eexists.
  - destruct (get_territory_ancestry site terr _) as [r2 s2] eqn:Hanc.
    assert (s' = s2) as -> by (by destruct r2; injection Hrun as _ <-).
    split.
    + intros t Ht. by rewrite (get_territory_ancestry_other _ _ _ _ _ _ Hanc Ht).
    + unfold get_territory_ancestry in Hanc.
      destruct (default ∅ _ !! terr) as [[|a l]|];
        injection Hanc as _ <-; simpl; rewrite <- ?app_assoc; by eexists.
Qed.

Lemma resolution_keeps_cache_witness :
  cache_coherent Demo.site new_session ∧
  ∃ r s',
    get_name_from_territory Demo.site Demo.settings "Mumbai" price_lists
      selling_price_list new_session = (r, s') ∧
    cache_coherent Demo.site s'.
Proof.
  split; [apply cache_coherent_new|].
  destruct (get_name_from_territory Demo.site Demo.settings "Mumbai"
              price_lists selling_price_list new_session) as [r s'] eqn:Hrun.
  exists r, s'. split; [reflexivity|].
  apply (resolution_keeps_cache Demo.site Demo.settings "Mumbai" price_lists
           selling_price_list new_session s' r (cache_coherent_new _) Hrun).
Defined.

(** X4. The cache is transparent: from any coherent session a resolution
    gives the result that it gives on a fresh controller. *)
Theorem resolution_ignores_cache (site : Site) (self : ShoppingCartSettings)
    (terr : string) (pf : parentfield) (fn : fieldname) (s : session) :
  cache_coherent site s →
  (get_name_from_territory site self terr pf fn s).1
  = (get_name_from_territory site self terr pf fn new_session).1.
Proof.
  intros Hs. rewrite !get_name_from_territory_run.
  destruct (territory_name_map_of site self pf fn !! terr); [done|].
  destruct (get_territory_ancestry_run site terr
              (log (name_map_calls site self pf fn) s)
              (cache_coherent_log _ _ _ Hs)) as (s1 & -> & _).
  destruct (get_territory_ancestry_run site terr
              (log (name_map_calls site self pf fn) new_session)
              (cache_coherent_log _ _ _ (cache_coherent_new site)))
    as (s2 & -> & _).
  done.
Qed.

Lemma resolution_ignores_cache_witness :
  let s := (get_name_from_territory Demo.site Demo.settings "Mumbai"
              price_lists selling_price_list new_session).2 in
  cache_coherent Demo.site s ∧
  is_Some (_territory_ancestry s) ∧
  (get_name_from_territory Demo.site Demo.settings "Mumbai" price_lists
     selling_price_list s).1
  = (get_name_from_territory Demo.site Demo.settings "Mumbai" price_lists
       selling_price_list new_session).1.
Proof.
  assert (Hs : cache_coherent Demo.site
                 (get_name_from_territory Demo.site Demo.settings "Mumbai"
                    price_lists selling_price_list new_session).2).
  { eapply get_name_from_territory_coherent; [apply cache_coherent_new|].
    apply surjective_pairing. }
  split; [exact Hs|]. split; [vm_compute; eauto|].
  apply (resolution_ignores_cache Demo.site Demo.settings "Mumbai"
           price_lists selling_price_list _ Hs).
Defined.

(** ** What a resolution can return *)

(** The result of a resolution is [None] or one of the lists of the
    dictionary. *)
Lemma get_name_from_territory_entry (site : Site)
    (self : ShoppingCartSettings) (terr : string) (pf : parentfield)
    (fn : fieldname) (s s' : session) (l : list string) :
  get_name_from_territory site self terr pf fn s = (Ok (Some l), s') →
  ∃ t, territory_name_map_of site self pf fn !! t = Some l.
Proof.
  rewrite get_name_from_territory_run.
  destruct (territory_name_map_of site self pf fn !! terr) as [l0|] eqn:Hm.
  - intros [= <- _]. eauto.
  - destruct (get_territory_ancestry_returns site terr
                (log (name_map_calls site self pf fn) s)) as (anc & s2 & ->).
    intros [= Hloop _].
    destruct (territory_name_map_of_spec site self pf fn) as [Hwf _].
    destruct (ancestor_loop_nearest _ _ anc Hwf)
      as [(pre & a & post & l' & _ & _ & Ha & Hl')|[_ Hnone]];
      rewrite Hloop in *; [|done].
    injection Hl' as ->. eauto.
Qed.

(** X5. The wrappers only return names of the settings: a price list that
    [get_price_list] returns is a non-empty name of the price-list table,
    a tax master that [get_tax_master] returns is one of the tax-master
    table, and every shipping rule that [get_shipping_rules] returns is one
    of the shipping-rule table. *)
Theorem wrappers_return_table_entries (site : Site)
    (self : ShoppingCartSettings) (terr : string) (s s' : session) :
  (∀ x, get_price_list site self terr s = (Ok (Some x), s') →
        x ∈ table self price_lists ∧ x ≠ ""%string) ∧
  (∀ x, get_tax_master site self terr s = (Ok (Some x), s') →
        x ∈ table self sales_taxes_and_charges_masters ∧ x ≠ ""%string) ∧
  (∀ l, get_shipping_rules site self terr s = (Ok (Some l), s') →
        l ≠ [] ∧ Forall (λ x, x ∈ table self shipping_rules) l).
Proof.
  assert (Hfirst : ∀ pf fn x,
            (r ← get_name_from_territory site self terr pf fn;
             first_or_None r) s = (Ok (Some x), s') →
            x ∈ table self pf ∧ x ≠ ""%string).
  { intros pf fn x. run.
    destruct (get_name_from_territory site self terr pf fn s)
      as [[r|e] s1] eqn:Hrun; [|done].
    rewrite first_or_None_run. destruct r as [[|x0 l]|]; [done| |done].
    destruct (truthy_str x0) eqn:Hx0; [|done]. intros [= <- <-].
    apply get_name_from_territory_entry in Hrun as [t Ht].
    destruct (territory_name_map_of_spec site self pf fn) as [Hwf _].
    destruct (Hwf _ _ Ht) as (_ & Hall & _).
    apply Forall_cons in Hall as [Hx _]. split; [done|].
    by apply truthy_str_true. }
  split_and!.
  - intros x. apply Hfirst.
  - intros x. apply Hfirst.
  - intros l Hrun. unfold get_shipping_rules in Hrun.
    apply get_name_from_territory_entry in Hrun as [t Ht].
    destruct (territory_name_map_of_spec site self shipping_rules shipping_rule)
      as [Hwf _].
    destruct (Hwf _ _ Ht) as (? & ? & _). done.
Qed.

Lemma wrappers_return_table_entries_witness :
  ∃ s', get_price_list Demo.site Demo.settings "Mumbai" new_session
        = (Ok (Some "PL-India"%string), s') ∧
        "PL-India"%string ∈ table Demo.settings price_lists.
Proof.
  destruct (get_price_list Demo.site Demo.settings "Mumbai" new_session)
    as [r s'] eqn:Hrun.
  assert (Hr : r = Ok (Some "PL-India"%string)).
  { vm_compute in Hrun. by injection Hrun as <- _. }
  subst r. exists s'. split; [reflexivity|].
  destruct (wrappers_return_table_entries Demo.site Demo.settings "Mumbai"
              new_session s') as [H _].
  by destruct (H _ Hrun).
Defined.

(** When the overlap check passes, every list of the dictionary has one
    name. *)
Lemma overlap_passed_single (site : Site) (self : ShoppingCartSettings)
    (pf : parentfield) (fn : fieldname) (s0 s1 : session)
    (m : gmap string (list string)) (t : string) (l : list string) :
  validate_overlapping_territories site self pf fn s0 = (Ok m, s1) →
  territory_name_map_of site self pf fn !! t = Some l →
  length l = 1.
Proof.
  rewrite validate_overlapping_territories_run.
  destruct (table self pf) as [|n names]; [done|]. simpl.
  destruct (list_find _ _) as [[i [t' l']]|] eqn:Hfind; [done|].
  intros _ Ht. apply list_find_None in Hfind. rewrite Forall_forall in Hfind.
  apply elem_of_map_to_list in Ht as Hin. specialize (Hfind _ Hin). simpl in Hfind.
  pose proof (territory_name_map_of_lookup site self pf fn t) as Hl.
  rewrite Ht in Hl. destruct Hl as (Hne & _). destruct l; [done|]. simpl in *. lia.
Qed.

(** X6. Once the overlap check of a table has passed, every resolution
    against that table that finds something finds exactly one name, and the
    price-list and tax-master wrappers return that name unless it is empty. *)
Theorem validated_resolution_single (site : Site)
    (self : ShoppingCartSettings) (pf : parentfield) (fn : fieldname)
    (s0 s1 s s' : session) (m : gmap string (list string)) (terr : string)
    (l : list string) :
  validate_overlapping_territories site self pf fn s0 = (Ok m, s1) →
  get_name_from_territory site self terr pf fn s = (Ok (Some l), s') →
  ∃ x, l = [x] ∧
       first_or_None (Some l) s'
       = (Ok (if decide (x = ""%string) then None else Some x), s').
Proof.
  intros Hov Hrun.
  apply get_name_from_territory_entry in Hrun as [t Ht].
  pose proof (overlap_passed_single _ _ _ _ _ _ _ _ _ Hov Ht) as Hlen.
  destruct l as [|x [|y l]]; simpl in Hlen; try lia.
  exists x. split; [done|]. rewrite first_or_None_run.
  by destruct x.
Qed.

Lemma demo_overlap_passes :
  validate_overlapping_territories Demo.site Demo.settings price_lists
    selling_price_list new_session
  = (Ok (territory_name_map_of Demo.site Demo.settings price_lists
           selling_price_list),
     log (name_map_calls Demo.site Demo.settings price_lists
            selling_price_list) new_session).
Proof. vm_compute. reflexivity. Qed.

Lemma demo_resolve_Mumbai :
  get_name_from_territory Demo.site Demo.settings "Mumbai" price_lists
    selling_price_list new_session
  = (Ok (Some ["PL-India"%string]),
     (get_name_from_territory Demo.site Demo.settings "Mumbai" price_lists
        selling_price_list new_session).2).
Proof. vm_compute. reflexivity. Qed.

Lemma validated_resolution_single_witness :
  ∃ m s1 s',
    validate_overlapping_territories Demo.site Demo.settings price_lists
      selling_price_list new_session = (Ok m, s1) ∧
    get_name_from_territory Demo.site Demo.settings "Mumbai" price_lists
      selling_price_list new_session = (Ok (Some ["PL-India"%string]), s') ∧
    first_or_None (Some ["PL-India"%string]) s'
    = (Ok (Some "PL-India"%string), s').
Proof.
  eexists _, _, _. split; [exact demo_overlap_passes|].
  split; [exact demo_resolve_Mumbai|].
  destruct (validated_resolution_single _ _ _ _ _ _ _ _ _ _ _
              demo_overlap_passes demo_resolve_Mumbai) as (x & [= <-] & Hfirst).
  exact Hfirst.
Defined.

(** With a coherent cache a resolution is the lookup in the dictionary,
    then the walk over the chain of the tree. *)
Lemma get_name_from_territory_pure (site : Site) (self : ShoppingCartSettings)
    (terr : string) (pf : parentfield) (fn : fieldname) (s : session) :
  cache_coherent site s →
  ∃ s', get_name_from_territory site self terr pf fn s
        = (Ok match territory_name_map_of site self pf fn !! terr with
              | Some l => Some l
              | None => ancestor_loop (territory_name_map_of site self pf fn)
                          (get_ancestors_of site terr)
              end, s').
Proof.
  intros Hs. rewrite get_name_from_territory_run.
  destruct (territory_name_map_of site self pf fn !! terr); [by eexists|].
  destruct (get_territory_ancestry_run site terr
              (log (name_map_calls site self pf fn) s)
              (cache_coherent_log _ _ _ Hs)) as (s1 & -> & _).
  by eexists.
Qed.

Lemma ancestor_loop_app (m : gmap string (list string))
    (pre rest : list string) :
  ancestor_loop m (pre ++ rest)
  = match ancestor_loop m pre with
    | Some l => Some l
    | None => ancestor_loop m rest
    end.
Proof.
  induction pre as [|a pre IH]; simpl; [done|].
  destruct (m !! a) as [[|x l]|]; simpl; done.
Qed.

Lemma validate_overlapping_territories_coherent (site : Site)
    (self : ShoppingCartSettings) (pf : parentfield) (fn : fieldname)
    (s s' : session) (r : res (gmap string (list string))) :
  cache_coherent site s →
  validate_overlapping_territories site self pf fn s = (r, s') →
  cache_coherent site s'.
Proof.
  intros Hs. rewrite validate_overlapping_territories_run.
  destruct (table self pf); [by intros [= _ <-]|]. simpl.
  destruct (list_find _ _) as [[? [? ?]]|]; intros [= _ <-];
    by apply cache_coherent_log.
Qed.

(** X7. The price list of the default territory is a catch-all: when
    [validate_price_lists] has passed, the default territory and every
    territory whose chain of ancestors runs through it resolve to a price
    list. *)
Theorem default_territory_catch_all (site : Site)
    (self : ShoppingCartSettings) (s s' s2 : session) (terr : string)
    (pre : list string) :
  cache_coherent site s →
  validate_price_lists site self s = (Ok tt, s') →
  cache_coherent site s2 →
  terr = default_territory self ∨
  get_ancestors_of site terr
  = pre ++ default_territory self :: get_ancestors_of site (default_territory self) →
  ∃ l s3,
    get_name_from_territory site self terr price_lists selling_price_list s2
    = (Ok (Some l), s3).
Proof.
  intros Hs Hvalid Hs2 Hterr.
  set (m := territory_name_map_of site self price_lists selling_price_list).
  assert (Hdefault : ∃ l,
            match m !! default_territory self with
            | Some l => Some l
            | None => ancestor_loop m (get_ancestors_of site (default_territory self))
            end = Some l).
  { rewrite validate_price_lists_run in Hvalid.
    destruct (validate_overlapping_territories _ _ _ _ s) as [[m'|e] s1] eqn:Hov;
      [|done].
    pose proof (validate_overlapping_territories_coherent _ _ _ _ _ _ _ Hs Hov)
      as Hs1.
    destruct (get_name_from_territory_pure site self (default_territory self)
                price_lists selling_price_list s1 Hs1) as (s1' & Hrun).
    rewrite Hrun in Hvalid. fold m in Hvalid.
    destruct (match m !! default_territory self with
              | Some l => Some l
              | None => _
              end) as [l|]; [eauto | done]. }
  destruct Hdefault as [l Hl].
  destruct (get_name_from_territory_pure site self terr price_lists
              selling_price_list s2 Hs2) as (s3 & Hrun).
  rewrite Hrun. fold m.
  destruct Hterr as [->|Hchain].
  - rewrite Hl. eauto.
  - destruct (m !! terr) as [l0|]; [eauto|].
    rewrite Hchain, ancestor_loop_app.
    destruct (ancestor_loop m pre) as [l1|]; [eauto|].
    simpl. destruct (territory_name_map_of_spec site self price_lists
                       selling_price_list) as [Hwf _]. fold m in Hwf.
    rewrite (truthy_list_well_formed _ _ _ Hwf).
    destruct (m !! default_territory self) as [l2|]; [eauto|].
    rewrite Hl. eauto.
Qed.

Lemma demo_validate_price_lists :
  validate_price_lists Demo.site Demo.settings new_session
  = (Ok tt, (validate_price_lists Demo.site Demo.settings new_session).2).
Proof. vm_compute. reflexivity. Qed.

Lemma default_territory_catch_all_witness :
  get_ancestors_of Demo.site "Mumbai"
  = ["India"%string] ++ default_territory Demo.settings
      :: get_ancestors_of Demo.site (default_territory Demo.settings) ∧
  ∃ l s3,
    get_name_from_territory Demo.site Demo.settings "Mumbai" price_lists
      selling_price_list new_session = (Ok (Some l), s3).
Proof.
  split; [reflexivity|].
  apply (default_territory_catch_all Demo.site Demo.settings new_session _
           new_session "Mumbai" ["India"%string] (cache_coherent_new _)
           demo_validate_price_lists (cache_coherent_new _)).
  right. reflexivity.
Defined.

Lemma ancestor_loop_empty (ancestry : list string) : ancestor_loop ∅ ancestry = None.
Proof. induction ancestry; simpl; [done|]. by rewrite lookup_empty. Qed.

(** X8. Against an empty child table every territory resolves to [None],
    and the database is not queried: the only outside call there can be is
    the one to the territory tree. *)
Theorem resolve_empty_table (site : Site) (self : ShoppingCartSettings)
    (terr : string) (pf : parentfield) (fn : fieldname) (s : session) :
  table self pf = [] →
  ∃ s', get_name_from_territory site self terr pf fn s = (Ok None, s') ∧
        (calls s' = calls s ∨ calls s' = calls s ++ [GetAncestorsOf terr]).
Proof.
  intros Hnil. rewrite get_name_from_territory_run.
  unfold territory_name_map_of, name_map_calls, table_rows.
  rewrite Hnil, sql_applicable_territory_nil. simpl.
  rewrite lookup_empty, log_nil.
  unfold get_territory_ancestry.
  destruct (default ∅ (_territory_ancestry s) !! terr) as [[|a l]|];
    eexists; (split; [by rewrite ancestor_loop_empty|]); simpl; auto.
Qed.

Lemma resolve_empty_table_witness :
  table Demo.no_price_lists price_lists = [] ∧
  ∃ s', get_name_from_territory Demo.site Demo.no_price_lists "Mumbai"
          price_lists selling_price_list new_session = (Ok None, s').
Proof.
  split; [reflexivity|].
  destruct (resolve_empty_table Demo.site Demo.no_price_lists "Mumbai"
              price_lists selling_price_list new_session eq_refl)
    as (s' & Hrun & _).
  by exists s'.
Defined.

(** ** The order of the rows in the database *)

Lemma before_in_antisym (names : list string) (a b : string) :
  before_in names a b → before_in names b a → a = b.
Proof.
  intros (i & j & Ha & Hb & Hij) (j' & i' & Hb' & Ha' & Hji).
  rewrite Ha in Ha'. rewrite Hb in Hb'. injection Ha' as <-. injection Hb' as <-.
  assert (i = j) as -> by lia.
  apply index_lookup in Ha as [Ha _]. apply index_lookup in Hb as [Hb _].
  congruence.
Qed.

(** X9. The dictionary does not depend on the order in which the database
    returns the rows: two sites whose tables of applicable territories are
    permutations of each other give the same dictionary. *)
Theorem territory_name_map_row_order (site1 site2 : Site)
    (self : ShoppingCartSettings) (pf : parentfield) (fn : fieldname)
    (s : session) :
  tabApplicable_Territory site1 ≡ₚ tabApplicable_Territory site2 →
  link_options site1 fn pf = link_options site2 fn pf →
  (get_territory_name_map site1 self pf fn s).1
  = (get_territory_name_map site2 self pf fn s).1.
Proof.
  intros Hperm Hopt. rewrite !get_territory_name_map_run. simpl. f_equal.
  apply map_eq. intros t.
  assert (Hrows : names_for (table_rows site1 self pf fn) t
                  ≡ₚ names_for (table_rows site2 self pf fn) t).
  { unfold names_for, table_rows, sql_applicable_territory.
    by rewrite Hperm, Hopt. }
  pose proof (territory_name_map_of_lookup site1 self pf fn t) as H1.
  pose proof (territory_name_map_of_lookup site2 self pf fn t) as H2.
  destruct (territory_name_map_of site1 self pf fn !! t) as [l1|],
           (territory_name_map_of site2 self pf fn !! t) as [l2|].
  - destruct H1 as (_ & Hp1 & Hs1), H2 as (_ & Hp2 & Hs2). f_equal.
    apply (StronglySorted_unique_strong (before_in (table self pf)));
      [|done..|by rewrite Hp1, Hp2].
    intros x1 x2 _ _. apply before_in_antisym.
  - destruct H1 as (Hne & Hp1 & _). rewrite Hrows, H2 in Hp1.
    by apply Permutation_nil_r in Hp1.
  - destruct H2 as (Hne & Hp2 & _). rewrite <- Hrows, H1 in Hp2.
    by apply Permutation_nil_r in Hp2.
  - done.
Qed.

Lemma territory_name_map_row_order_witness :
  tabApplicable_Territory Demo.overlap_site
  ≡ₚ tabApplicable_Territory Demo.overlap_site_reversed ∧
  (get_territory_name_map Demo.overlap_site Demo.overlap_settings price_lists
     selling_price_list new_session).1
  = (get_territory_name_map Demo.overlap_site_reversed Demo.overlap_settings
       price_lists selling_price_list new_session).1.
Proof.
  assert (H : tabApplicable_Territory Demo.overlap_site
              ≡ₚ tabApplicable_Territory Demo.overlap_site_reversed)
    by apply Permutation_swap.
  split; [exact H|].
  apply (territory_name_map_row_order Demo.overlap_site
           Demo.overlap_site_reversed Demo.overlap_settings price_lists
           selling_price_list new_session H eq_refl).
Defined.

(** ** The outcomes of the exchange-rate check *)

(** The four ways [validate_exchange_rates_exist] can end, each with the
    state of the site that leads to it. *)
Lemma exchange_cases (site : Site) (self : ShoppingCartSettings) (s : session) :
  let r := (validate_exchange_rates_exist site self s).1 in
  (company_currency_of site self = ""%string ∧
   r = Raise (MissingCompanyCurrencyError (company self))) ∨
  (company_currency_of site self ≠ ""%string ∧
   ∃ pl, pl ∈ table self price_lists ∧
         tabPrice_List site !! pl = Some ""%string ∧
         r = Raise (MissingPriceListCurrencyError pl)) ∨
  (company_currency_of site self ≠ ""%string ∧ currencies_set site self ∧
   ∃ missing p, r = Raise (MissingExchangeRatesError missing) ∧
                required_pair site self p ∧ p ∉ tabCurrency_Exchange site) ∨
  (rates_exist site self ∧ r = Ok tt).
Proof.
  intros r. destruct (decide (company_currency_of site self = ""%string)) as [Hcc|Hcc].
  { left. split; [done|]. subst r. unfold validate_exchange_rates_exist. run.
    fold (company_currency_of site self). by rewrite Hcc. }
  right.
  destruct (list_find (λ item : string * string, truthy_str item.2 = false)
              (map_to_list (get_values_price_list site (table self price_lists))))
    as [[i [pl c]]|] eqn:Hfind.
  { left. split; [done|]. exists pl.
    apply list_find_Some in Hfind as Hfind'. destruct Hfind' as (Hi & Hc & _).
    simpl in Hc. apply truthy_str_false in Hc. subst c.
    apply list_elem_of_lookup_2, get_values_price_list_lookup in Hi as [Hpl Hin].
    split_and!; [done..|]. subst r. unfold validate_exchange_rates_exist. run.
    fold (company_currency_of site self).
    apply truthy_str_true in Hcc. by rewrite Hcc, Hfind. }
  right.
  assert (Hset : currencies_set site self).
  { intros pl c Hin Hpl ->. apply list_find_None in Hfind.
    rewrite Forall_forall in Hfind.
    apply (Hfind (pl, ""%string)); [|done].
    by apply get_values_price_list_lookup. }
  destruct (currency_coverage_general site self s Hcc Hset)
    as (s' & [[Hall Hrun]|(missing & Hrun & Hne & _ & Hmiss)]).
  - right. subst r. by rewrite Hrun.
  - left. split_and!; [done..|]. destruct missing as [|p missing]; [done|].
    exists (p :: missing), p. subst r. rewrite Hrun. split; [done|].
    apply Hmiss. left.
Qed.

(** X10. A price list of the table without a currency stops the check, once
    the company has a currency: the error names a price list of the table
    whose currency is unset, and this happens exactly when there is one. *)
Theorem price_list_currency_missing (site : Site)
    (self : ShoppingCartSettings) (s : session) :
  company_currency_of site self ≠ ""%string →
  ((∃ pl, (validate_exchange_rates_exist site self s).1
          = Raise (MissingPriceListCurrencyError pl))
   ↔ ∃ pl, pl ∈ table self price_lists ∧
           tabPrice_List site !! pl = Some ""%string) ∧
  (∀ pl, (validate_exchange_rates_exist site self s).1
         = Raise (MissingPriceListCurrencyError pl) →
         pl ∈ table self price_lists ∧
         tabPrice_List site !! pl = Some ""%string).
Proof.
  intros Hcc.
  assert (Hnamed : ∀ pl, (validate_exchange_rates_exist site self s).1
                         = Raise (MissingPriceListCurrencyError pl) →
                         pl ∈ table self price_lists ∧
                         tabPrice_List site !! pl = Some ""%string).
  { intros pl Hrun.
    destruct (exchange_cases site self s)
      as [[_ H]|[(_ & pl' & ? & ? & H)|[(_ & _ & ? & ? & H & _)|[_ H]]]];
      rewrite Hrun in H; try discriminate.
    by injection H as ->. }
  split; [|done]. split.
  - intros [pl Hrun]. exists pl. by apply Hnamed.
  - intros (pl & Hin & Hpl).
    destruct (exchange_cases site self s)
      as [[? _]|[(_ & pl' & _ & _ & H)|[(_ & Hset & _)|[(_ & Hset & _) _]]]].
    + done.
    + eauto.
    + by destruct (Hset pl _ Hin Hpl).
    + by destruct (Hset pl _ Hin Hpl).
Qed.

Lemma price_list_currency_missing_witness :
  company_currency_of Demo.no_currency_site Demo.settings ≠ ""%string ∧
  (validate_exchange_rates_exist Demo.no_currency_site Demo.settings
     new_session).1
  = Raise (MissingPriceListCurrencyError "PL-India").
Proof.
  assert (Hcc : company_currency_of Demo.no_currency_site Demo.settings
                ≠ ""%string) by (vm_compute; discriminate).
  split; [exact Hcc|].
  destruct (price_list_currency_missing Demo.no_currency_site Demo.settings
              new_session Hcc) as [[_ Hex] _].
  vm_compute. reflexivity.
Defined.

(** X11. The outcome of [validate_exchange_rates_exist] is decided by the
    site: the company error exactly when the company has no currency; a
    missing-rates error exactly when the currencies are set and some
    required pair has no rate; success exactly when the currencies are set
    and every required pair has its rate. *)
Theorem exchange_outcomes (site : Site) (self : ShoppingCartSettings)
    (s : session) :
  let r := (validate_exchange_rates_exist site self s).1 in
  (r = Raise (MissingCompanyCurrencyError (company self))
   ↔ company_currency_of site self = ""%string) ∧
  ((∃ missing, r = Raise (MissingExchangeRatesError missing))
   ↔ company_currency_of site self ≠ ""%string ∧ currencies_set site self ∧
     ∃ p, required_pair site self p ∧ p ∉ tabCurrency_Exchange site) ∧
  (r = Ok tt ↔ rates_exist site self).
Proof.
  intros r. subst r. split_and!; split.
  - intros Hrun.
    destruct (exchange_cases site self s)
      as [[? _]|[(_ & ? & _ & _ & H)|[(_ & _ & ? & ? & H & _)|[_ H]]]];
      [done|rewrite Hrun in H; discriminate..].
  - intros Hcc.
    destruct (exchange_cases site self s)
      as [[_ H]|[(? & _)|[(? & _)|[(? & _) _]]]]; done.
  - intros [missing Hrun].
    destruct (exchange_cases site self s)
      as [[_ H]|[(_ & ? & _ & _ & H)|[(? & ? & ? & p & _ & ? & ?)|[_ H]]]];
      [rewrite Hrun in H; discriminate..| |rewrite Hrun in H; discriminate].
    eauto.
  - intros (Hcc & Hset & p & Hp & Hnot).
    destruct (exchange_cases site self s)
      as [[? _]|[(_ & pl & Hin & Hpl & _)|[(_ & _ & ? & ? & H & _)|[(_ & _ & Hall) _]]]].
    + done.
    + by destruct (Hset pl _ Hin Hpl).
    + eauto.
    + by destruct Hnot; apply Hall.
  - intros Hrun.
    destruct (exchange_cases site self s)
      as [[_ H]|[(_ & ? & _ & _ & H)|[(_ & _ & ? & ? & H & _)|[? _]]]];
      [rewrite Hrun in H; discriminate..|done].
  - intros (Hcc & Hset & Hall).
    destruct (exchange_cases site self s)
      as [[? _]|[(_ & pl & Hin & Hpl & _)|[(_ & _ & ? & p & _ & Hp & Hnot)|[_ H]]]].
    + done.
    + by destruct (Hset pl _ Hin Hpl).
    + by destruct Hnot; apply Hall.
    + done.
Qed.

(** X12. When the company has a currency and every price list of the table
    is in that currency, the check succeeds without asking the exchange
    table: the only outside calls are the two look-ups of currencies. *)
Theorem same_currency_no_exchange_query (site : Site)
    (self : ShoppingCartSettings) (s : session) :
  company_currency_of site self ≠ ""%string →
  (∀ pl c, pl ∈ table self price_lists →
           tabPrice_List site !! pl = Some c →
           c = company_currency_of site self) →
  ∃ s',
    validate_exchange_rates_exist site self s = (Ok tt, s') ∧
    _territory_ancestry s' = _territory_ancestry s ∧
    calls s' = calls s ++ [GetValueCompany (company self);
                          GetValuesPriceList (table self price_lists)].
Proof.
  intros Hcc Hsame. unfold validate_exchange_rates_exist. run.
  fold (company_currency_of site self).
  apply truthy_str_true in Hcc as Hcc'. rewrite Hcc'.
  assert (Hvals : Forall (λ c, c = company_currency_of site self)
                    (map_to_list (get_values_price_list site
                                    (table self price_lists))).*2).
  { apply Forall_fmap, Forall_forall. intros [pl c] Hin. simpl.
    apply get_values_price_list_lookup in Hin as [Hpl Hin]. by eapply Hsame. }
  destruct (list_find _ _) as [[i [pl c]]|] eqn:Hfind.
  { exfalso. apply list_find_Some in Hfind as (Hi & Hc & _). simpl in Hc.
    apply truthy_str_false in Hc.
    apply list_elem_of_lookup_2, get_values_price_list_lookup in Hi as [Hpl Hin].
    apply Hcc. rewrite <- (Hsame pl c Hin Hpl). done. }
  assert (Hnone : filter (λ currency, currency ≠ company_currency_of site self)
                    (map_to_list (get_values_price_list site
                                    (table self price_lists))).*2 = []).
  { induction Hvals as [|c l Hc Hl IH]; [done|].
    rewrite filter_cons. by case_decide. }
  rewrite Hnone. simpl. eexists. split_and!; [done..|].
  simpl. by rewrite <- app_assoc.
Qed.

Lemma same_currency_no_exchange_query_witness :
  company_currency_of Demo.site Demo.no_price_lists ≠ ""%string ∧
  ∃ s', validate_exchange_rates_exist Demo.site Demo.no_price_lists
          new_session = (Ok tt, s') ∧
        calls s' = [GetValueCompany "Acme"; GetValuesPriceList []].
Proof.
  assert (Hcc : company_currency_of Demo.site Demo.no_price_lists ≠ ""%string)
    by (vm_compute; discriminate).
  split; [exact Hcc|].
  destruct (same_currency_no_exchange_query Demo.site Demo.no_price_lists
              new_session Hcc) as (s' & Hrun & _ & Hcalls).
  { intros pl c Hin. inversion Hin. }
  exists s'. split; [exact Hrun | exact Hcalls].
Defined.

(** ** What [validate] looks at *)

Lemma get_territory_name_map_table (site : Site)
    (self1 self2 : ShoppingCartSettings) (pf : parentfield) (fn : fieldname) :
  table self1 pf = table self2 pf →
  get_territory_name_map site self1 pf fn = get_territory_name_map site self2 pf fn.
Proof. intros H. unfold get_territory_name_map. by rewrite H. Qed.

Lemma validate_overlapping_territories_table (site : Site)
    (self1 self2 : ShoppingCartSettings) (pf : parentfield) (fn : fieldname) :
  table self1 pf = table self2 pf →
  validate_overlapping_territories site self1 pf fn
  = validate_overlapping_territories site self2 pf fn.
Proof.
  intros H. unfold validate_overlapping_territories, validate_table_has_rows.
  by rewrite H, (get_territory_name_map_table site self1 self2 pf fn H).
Qed.

(** X13. [validate] never looks at the shipping rules: settings that agree
    on everything but the shipping-rule table are validated alike. *)
Theorem validate_ignores_shipping_rules (site : Site)
    (self1 self2 : ShoppingCartSettings) (s : session) :
  enabled self1 = enabled self2 →
  default_territory self1 = default_territory self2 →
  company self1 = company self2 →
  table self1 price_lists = table self2 price_lists →
  table self1 sales_taxes_and_charges_masters
  = table self2 sales_taxes_and_charges_masters →
  validate site self1 s = validate site self2 s.
Proof.
  intros Hen Hdt Hco Hpl Htax.
  unfold validate, validate_price_lists, validate_tax_masters,
    validate_exchange_rates_exist, get_name_from_territory.
  rewrite Hen, Hdt, Hco, Hpl.
  rewrite (validate_overlapping_territories_table site self1 self2
             price_lists selling_price_list Hpl).
  rewrite (validate_overlapping_territories_table site self1 self2
             sales_taxes_and_charges_masters sales_taxes_and_charges_master Htax).
  by rewrite (get_territory_name_map_table site self1 self2
                price_lists selling_price_list Hpl).
Qed.

Lemma validate_ignores_shipping_rules_witness :
  table Demo.settings shipping_rules
  ≠ table Demo.settings_with_shipping shipping_rules ∧
  validate Demo.site Demo.settings new_session
  = validate Demo.site Demo.settings_with_shipping new_session.
Proof.
  split; [discriminate|].
  apply (validate_ignores_shipping_rules Demo.site Demo.settings
           Demo.settings_with_shipping new_session); reflexivity.
Defined.

(** ** The settings that [validate] accepts *)

Lemma overlap_ok_iff (site : Site) (self : ShoppingCartSettings)
    (pf : parentfield) (fn : fieldname) (s : session) :
  (∃ m s', validate_overlapping_territories site self pf fn s = (Ok m, s'))
  ↔ no_overlap site self pf fn.
Proof.
  rewrite validate_overlapping_territories_run. unfold no_overlap.
  destruct (table self pf) as [|n names] eqn:Hnames.
  { split; [by intros (m & s' & ?)|by intros [? _]]. }
  simpl.
  destruct (list_find _ _) as [[i [t l]]|] eqn:Hfind.
  - split; [by intros (m & s' & ?)|]. intros [_ Hone]. exfalso.
    apply list_find_Some in Hfind as (Hi & Hl & _). simpl in Hl.
    apply list_elem_of_lookup_2, elem_of_map_to_list in Hi.
    pose proof (territory_name_map_of_lookup site self pf fn t) as H.
    rewrite Hi in H. destruct H as (_ & Hperm & _).
    specialize (Hone t). rewrite <- Hperm in Hone. lia.
  - split; [|by eauto]. intros _. split; [done|]. intros t.
    apply list_find_None in Hfind. rewrite Forall_forall in Hfind.
    pose proof (territory_name_map_of_lookup site self pf fn t) as H.
    destruct (territory_name_map_of site self pf fn !! t) as [l|] eqn:Ht.
    + destruct H as (_ & Hperm & _). rewrite <- Hperm.
      apply elem_of_map_to_list in Ht. specialize (Hfind _ Ht). simpl in Hfind. lia.
    + rewrite H. simpl. lia.
Qed.

Lemma covered_iff (site : Site) (self : ShoppingCartSettings)
    (pf : parentfield) (fn : fieldname) (terr : string) :
  is_Some match territory_name_map_of site self pf fn !! terr with
          | Some l => Some l
          | None => ancestor_loop (territory_name_map_of site self pf fn)
                      (get_ancestors_of site terr)
          end
  ↔ covered site self pf fn terr.
Proof.
  unfold covered.
  destruct (territory_name_map_of_spec site self pf fn) as [Hwf _].
  destruct (territory_name_map_of site self pf fn !! terr) as [l|] eqn:Hm.
  - split; [|by eauto]. intros _. left.
    pose proof (territory_name_map_of_lookup site self pf fn terr) as H.
    rewrite Hm in H. destruct H as (Hne & Hperm & _).
    destruct l as [|x l]; [done|]. exists x.
    apply names_for_elem. rewrite <- Hperm. left.
  - pose proof (proj1 (lookup_None_direct_entry site self pf fn terr) Hm) as Hno.
    destruct (ancestor_loop_nearest _ _ (get_ancestors_of site terr) Hwf)
      as [(pre & a & post & l & Hanc & _ & Ha & ->)|[Hall ->]].
    + split; [|by eauto]. intros _. right.
      pose proof (territory_name_map_of_lookup site self pf fn a) as H.
      rewrite Ha in H. destruct H as (Hne & Hperm & _).
      destruct l as [|x l]; [done|]. exists a, x. split.
      * rewrite Hanc. apply elem_of_app. right. left.
      * apply names_for_elem. rewrite <- Hperm. left.
    + split; [by intros [? ?]|]. intros [[name Hd]|(a & name & Ha & Hd)].
      * by destruct (Hno name).
      * apply Hall in Ha.
        by destruct (proj1 (lookup_None_direct_entry site self pf fn a) Ha name).
Qed.

Lemma validate_price_lists_ok_iff (site : Site) (self : ShoppingCartSettings)
    (s : session) :
  cache_coherent site s →
  ∃ r s', validate_price_lists site self s = (r, s') ∧
          cache_coherent site s' ∧
          (r = Ok tt ↔
           no_overlap site self price_lists selling_price_list ∧
           covered site self price_lists selling_price_list
             (default_territory self)).
Proof.
  intros Hs. rewrite validate_price_lists_run.
  pose proof (overlap_ok_iff site self price_lists selling_price_list s) as Hov.
  destruct (validate_overlapping_territories site self price_lists
              selling_price_list s) as [[m|e] s1] eqn:Hrun1.
  - pose proof (validate_overlapping_territories_coherent _ _ _ _ _ _ _ Hs Hrun1)
      as Hs1.
    destruct (get_name_from_territory_pure site self (default_territory self)
                price_lists selling_price_list s1 Hs1) as (s2 & Hrun2).
    pose proof (get_name_from_territory_coherent _ _ _ _ _ _ _ _ Hs1 Hrun2) as Hs2.
    destruct (get_name_from_territory_returns site self (default_territory self)
                price_lists selling_price_list s1) as (r' & s2' & Hrun2' & Hr').
    rewrite Hrun2 in Hrun2'. injection Hrun2' as Hr _.
    pose proof (covered_iff site self price_lists selling_price_list
                  (default_territory self)) as Hcov.
    rewrite Hrun2. rewrite Hr in Hcov |- *.
    destruct r' as [[|x l]|]; [done| |]; simpl; eexists _, s2;
      (split; [done|]); (split; [done|]).
    + split; [|done]. intros _. split; [apply Hov; eauto | apply Hcov; eauto].
    + split; [done|]. intros [_ Hc]. apply Hcov in Hc. by destruct Hc.
  - eexists _, s1. split; [done|].
    split; [by eapply validate_overlapping_territories_coherent|].
    split; [done|]. intros [Hno _]. apply Hov in Hno as (m & s' & ?). done.
Qed.

Lemma exchange_ok_iff (site : Site) (self : ShoppingCartSettings)
    (s : session) :
  (validate_exchange_rates_exist site self s).1 = Ok tt ↔ rates_exist site self.
Proof.
  split.
  - intros Hrun.
    destruct (exchange_cases site self s)
      as [[_ H]|[(_ & ? & _ & _ & H)|[(_ & _ & ? & ? & H & _)|[? _]]]];
      [rewrite Hrun in H; discriminate..|done].
  - intros (Hcc & Hset & Hall).
    destruct (exchange_cases site self s)
      as [[? _]|[(_ & pl & Hin & Hpl & _)|[(_ & _ & ? & p & _ & Hp & Hnot)|[_ H]]]].
    + done.
    + by destruct (Hset pl _ Hin Hpl).
    + by destruct Hnot; apply Hall.
    + done.
Qed.

(** X14. [validate] accepts exactly the settings that are not enabled and
    the enabled settings in which: both the price-list and the tax-master
    table have a row and give no territory two rows; the default territory or
    one of its ancestors has a price list; the company and the price lists
    have a currency; and every required exchange rate exists. *)
Theorem validate_accepts (site : Site) (self : ShoppingCartSettings)
    (s : session) :
  cache_coherent site s →
  ((validate site self s).1 = Ok tt
   ↔ enabled self = false ∨ valid_settings site self).
Proof.
  intros Hs. unfold validate, valid_settings.
  destruct (enabled self); [|split; [by left | done]].
  unfold validate_tax_masters. run.
  destruct (validate_price_lists_ok_iff site self s Hs)
    as (r & s1 & -> & Hs1 & Hpl).
  pose proof (overlap_ok_iff site self sales_taxes_and_charges_masters
                sales_taxes_and_charges_master s1) as Htax.
  pose proof (exchange_ok_iff site self) as Hex.
  destruct r as [[]|e].
  - destruct (validate_overlapping_territories site self
                sales_taxes_and_charges_masters sales_taxes_and_charges_master s1)
      as [[m|e] s2] eqn:Hrun2.
    + specialize (Hex s2).
      destruct (validate_exchange_rates_exist site self s2) as [r3 s3].
      simpl in *. split.
      * intros Hr3. right. destruct Hpl as [[? ?] _]; [done|].
        split_and!; [done..|apply Htax; eauto|by apply Hex].
      * intros [?|(_ & _ & _ & Hrates)]; [done|]. by apply Hex.
    + simpl. split; [done|]. intros [?|(_ & _ & Hno & _)]; [done|].
      apply Htax in Hno as (m & s' & ?). done.
  - simpl. split; [done|]. intros [?|(Hno & Hcov & _)]; [done|].
    assert (Raise e = Ok tt) by (by apply Hpl). done.
Qed.

Lemma demo_valid_site_accepted :
  (validate Demo.valid_site Demo.settings new_session).1 = Ok tt.
Proof. vm_compute. reflexivity. Qed.

Lemma validate_accepts_witness :
  cache_coherent Demo.valid_site new_session ∧
  (validate Demo.valid_site Demo.settings new_session).1 = Ok tt ∧
  (enabled Demo.settings = false ∨ valid_settings Demo.valid_site Demo.settings).
Proof.
  split; [apply cache_coherent_new|]. split; [exact demo_valid_site_accepted|].
  apply (validate_accepts Demo.valid_site Demo.settings new_session
           (cache_coherent_new _)).
  exact demo_valid_site_accepted.
Defined.
